(** * Synergy-label pipeline: counting store, pair keys, label records, model codec

    A shallow embedding of [hash.c], [labels.c] and the model part of
    [train.c].  Unsigned 64-bit values ([uint64_t], [size_t]) are integers
    of [Z] in [0, 2^64) with the wrap-around written out; arrays are lists
    read and written by index; a pointer into the entry array of a map is
    the index of the slot it points to, and [NULL] is [None]. *)

From Stdlib Require Import ZArith Lia Bool List SpecFloat.
From Stdlib.Strings Require Import Byte.
From stdpp Require Import base list.
Import ListNotations.

#[local] Open Scope Z_scope.

(** ** Machine integers *)

Definition UINT64_MAX : Z := 2 ^ 64 - 1.
Definition SIZE_MAX : Z := UINT64_MAX.

(** Unsigned 64-bit wrap-around. *)
Definition wrap64 (z : Z) : Z := z mod 2 ^ 64.

(** Conversion [(int64_t)x] of an unsigned value, two's complement. *)
Definition to_int64 (z : Z) : Z := (z + 2 ^ 63) mod 2 ^ 64 - 2 ^ 63.

Definition in_u64 (z : Z) : Prop := 0 <= z < 2 ^ 64.

(** ** hash.h / hash.c *)

Definition HASH_EMPTY_KEY : Z := UINT64_MAX.
Definition HASH_TOMBSTONE : Z := UINT64_MAX - 1.

(** [HashEntry]: the fields [key], [n], [w] of the C struct. *)
Record HashEntry : Type := mkEntry {
  entry_key : Z;
  entry_n : Z;
  entry_w : Z
}.

(** [HashMap]: the fields [entries], [capacity], [size], [tombstones]. *)
Record HashMap : Type := mkMap {
  map_entries : list HashEntry;
  map_capacity : Z;
  map_size : Z;
  map_tombstones : Z
}.

(** [sizeof(HashEntry)]: three 8-byte fields. *)
Definition sizeof_HashEntry : Z := 24.

(** What [calloc] leaves in a slot once its key is set to [HASH_EMPTY_KEY]. *)
Definition empty_entry : HashEntry := mkEntry HASH_EMPTY_KEY 0 0.

(** [calloc(nmemb, size)] returns [NULL] when the byte count does not fit in
    [size_t]; memory is otherwise taken to be available. *)
Definition calloc_ok (nmemb size : Z) : bool := nmemb * size <? 2 ^ 64.

(** [entries[p]]. *)
Definition entry_at (es : list HashEntry) (p : Z) : HashEntry :=
  default empty_entry (es !! Z.to_nat p).

(** FNV-1a over the 8 bytes of the key: the body of the [for] loop, run
    [cnt] times from byte [i]. *)
Fixpoint hash_loop (cnt : nat) (i key hash : Z) : Z :=
  match cnt with
  | O => hash
  | S c =>
      let hash1 := Z.lxor hash (Z.land (Z.shiftr key (i * 8)) 255) in
      let hash2 := wrap64 (hash1 * 1099511628211) in
      hash_loop c (i + 1) key hash2
  end.

Definition hash_u64 (key : Z) : Z :=
  hash_loop 8 0 key 14695981039346656037.

(** The [while (cap < initial_capacity) cap *= 2] loop; [None] when it has
    not stopped after [fuel] doublings. *)
Fixpoint init_capacity (fuel : nat) (cap initial_capacity : Z) : option Z :=
  match fuel with
  | O => None
  | S f =>
      if cap <? initial_capacity
      then init_capacity f (wrap64 (cap * 2)) initial_capacity
      else Some cap
  end.

(** [hashmap_init]: [Some map] for return code 0, [None] for -1 (or for a
    capacity loop that never stops: after 64 doublings [cap] has wrapped
    to 0 and stays there). *)
Definition hashmap_init (initial_capacity : Z) : option HashMap :=
  match init_capacity 65 16 initial_capacity with
  | None => None
  | Some cap =>
      if calloc_ok cap sizeof_HashEntry
      then Some (mkMap (replicate (Z.to_nat cap) empty_entry) cap 0 0)
      else None
  end.

Definition is_sentinel (key : Z) : bool :=
  (key =? HASH_EMPTY_KEY) || (key =? HASH_TOMBSTONE).

(** The probe loop of [hashmap_get], from iteration [i], [fuel] iterations
    left. *)
Fixpoint get_probe (fuel : nat) (es : list HashEntry) (mask idx i key : Z)
  : option Z :=
  match fuel with
  | O => None
  | S f =>
      let probe := Z.land (wrap64 (idx + i)) mask in
      let entry := entry_at es probe in
      if entry_key entry =? key then Some probe
      else if entry_key entry =? HASH_EMPTY_KEY then None
      else get_probe f es mask idx (i + 1) key
  end.

(** [hashmap_get]: the slot of the entry found, or [None] for [NULL]. *)
Definition hashmap_get (map : HashMap) (key : Z) : option Z :=
  if is_sentinel key then None
  else
    let hash := hash_u64 key in
    let mask := wrap64 (map_capacity map - 1) in
    let idx := Z.land hash mask in
    get_probe (Z.to_nat (map_capacity map)) (map_entries map) mask idx 0 key.

(** The probe loop of [hashmap_put]. *)
Fixpoint put_probe (fuel : nat) (map : HashMap)
    (mask idx i first_tombstone key : Z) : HashMap * option Z :=
  match fuel with
  | O => (map, None)
  | S f =>
      let probe := Z.land (wrap64 (idx + i)) mask in
      let entry := entry_at (map_entries map) probe in
      if entry_key entry =? key then (map, Some probe)
      else
        let first_tombstone :=
          if (entry_key entry =? HASH_TOMBSTONE) && (first_tombstone =? SIZE_MAX)
          then probe else first_tombstone in
        if entry_key entry =? HASH_EMPTY_KEY then
          let probe' :=
            if negb (first_tombstone =? SIZE_MAX) then first_tombstone else probe in
          let tombstones' :=
            if negb (first_tombstone =? SIZE_MAX)
            then wrap64 (map_tombstones map - 1) else map_tombstones map in
          (mkMap (<[Z.to_nat probe' := mkEntry key 0 0]> (map_entries map))
                 (map_capacity map)
                 (wrap64 (map_size map + 1))
                 tombstones',
           Some probe')
        else put_probe f map mask idx (i + 1) first_tombstone key
  end.

(** [entry->n = n; entry->w = w] through the pointer [p]. *)
Definition set_counts (es : list HashEntry) (p n w : Z) : list HashEntry :=
  <[Z.to_nat p := mkEntry (entry_key (entry_at es p)) n w]> es.

(** The reinsertion loop of [hashmap_resize], written over the [put] it
    calls.  [None]: the loop has no defined result ([put] gave none, or it
    returned [NULL], which the loop dereferences). *)
Fixpoint reinsert (put : HashMap -> Z -> option (HashMap * option Z))
    (fuel : nat) (old_entries : list HashEntry) (i : Z) (map : HashMap)
  : option HashMap :=
  match fuel with
  | O => Some map
  | S f =>
      let old := entry_at old_entries i in
      if negb (entry_key old =? HASH_EMPTY_KEY)
         && negb (entry_key old =? HASH_TOMBSTONE)
      then
        match put map (entry_key old) with
        | Some (map1, Some p) =>
            reinsert put f old_entries (i + 1)
              (mkMap (set_counts (map_entries map1) p (entry_n old) (entry_w old))
                     (map_capacity map1) (map_size map1) (map_tombstones map1))
        | _ => None
        end
      else reinsert put f old_entries (i + 1) map
  end.

(** [hashmap_resize] over the [put] it calls: the map afterwards and the
    return code. *)
Definition hashmap_resize_with (put : HashMap -> Z -> option (HashMap * option Z))
    (map : HashMap) : option (HashMap * Z) :=
  let old_cap := map_capacity map in
  let old_entries := map_entries map in
  let new_cap := wrap64 (old_cap * 2) in
  if negb (calloc_ok new_cap sizeof_HashEntry) then Some (map, -1)
  else
    let fresh := mkMap (replicate (Z.to_nat new_cap) empty_entry) new_cap 0 0 in
    match reinsert put (Z.to_nat old_cap) old_entries 0 fresh with
    | Some map' => Some (map', 0)
    | None => None
    end.

(** [hashmap_put] and [hashmap_resize] call each other; [depth] bounds the
    nesting of resizes ([None] when it is used up). *)
Fixpoint hashmap_put_depth (depth : nat) (map : HashMap) (key : Z)
  : option (HashMap * option Z) :=
  if is_sentinel key then Some (map, None)
  else
    let resized :=
      if wrap64 ((map_size map + map_tombstones map) * 10)
         >? wrap64 (map_capacity map * 7)
      then
        match depth with
        | O => None
        | S d => hashmap_resize_with (hashmap_put_depth d) map
        end
      else Some (map, 0)
    in
    match resized with
    | None => None
    | Some (map1, rc) =>
        if negb (rc =? 0) then Some (map1, None)
        else
          let hash := hash_u64 key in
          let mask := wrap64 (map_capacity map1 - 1) in
          let idx := Z.land hash mask in
          Some (put_probe (Z.to_nat (map_capacity map1)) map1 mask idx 0 SIZE_MAX key)
    end.

Definition resize_depth : nat := 64.

Definition hashmap_put (map : HashMap) (key : Z) : option (HashMap * option Z) :=
  hashmap_put_depth resize_depth map key.

Definition hashmap_resize (map : HashMap) : option (HashMap * Z) :=
  hashmap_resize_with (hashmap_put_depth resize_depth) map.

(** [hashmap_increment]; [win] is the C flag as a boolean. *)
Definition hashmap_increment (map : HashMap) (key : Z) (win : bool)
  : option HashMap :=
  match hashmap_put map key with
  | None => None
  | Some (map1, None) => Some map1
  | Some (map1, Some p) =>
      let entry := entry_at (map_entries map1) p in
      let n1 := wrap64 (entry_n entry + 1) in
      let w1 := if win then wrap64 (entry_w entry + 1) else entry_w entry in
      Some (mkMap (<[Z.to_nat p := mkEntry (entry_key entry) n1 w1]> (map_entries map1))
                  (map_capacity map1) (map_size map1) (map_tombstones map1))
  end.

(** [hashmap_iterate], as the list of the [(key, n, w)] the callback is
    called with, in call order. *)
Fixpoint iterate_from (fuel : nat) (es : list HashEntry) (i : Z)
  : list HashEntry :=
  match fuel with
  | O => []
  | S f =>
      let entry := entry_at es i in
      if negb (entry_key entry =? HASH_EMPTY_KEY)
         && negb (entry_key entry =? HASH_TOMBSTONE)
      then entry :: iterate_from f es (i + 1)
      else iterate_from f es (i + 1)
  end.

Definition hashmap_iterate (map : HashMap) : list HashEntry :=
  iterate_from (Z.to_nat (map_capacity map)) (map_entries map) 0.

Definition hashmap_size (map : HashMap) : Z := map_size map.

(** [pair_key]: smaller id first, low 32 bits of each, packed. *)
Definition pair_key (a b : Z) : Z :=
  let a' := if a >? b then b else a in
  let b' := if a >? b then a else b in
  let a32 := Z.land a' 4294967295 in
  let b32 := Z.land b' 4294967295 in
  Z.lor (wrap64 (Z.shiftl a32 32)) b32.

(** [pair_decode]: the two out-parameters as a pair. *)
Definition pair_decode (key : Z) : Z * Z :=
  (Z.land (Z.shiftr key 32) 4294967295, Z.land key 4294967295).

(** ** labels.h / labels.c *)

Definition MIN_BOTH_PRESENT : Z := 500.
Definition MAX_GAME_CARDS : Z := 100.

(** [double]: IEEE-754 binary64, every operation rounded to nearest even. *)
Definition double : Type := spec_float.
Definition dbl_prec : Z := 53.
Definition dbl_emax : Z := 1024.
Definition dbl_add : double -> double -> double := SFadd dbl_prec dbl_emax.
Definition dbl_sub : double -> double -> double := SFsub dbl_prec dbl_emax.
Definition dbl_div : double -> double -> double := SFdiv dbl_prec dbl_emax.
(** Conversion of an integer to [double]. *)
Definition dbl_of_Z (z : Z) : double := binary_normalize dbl_prec dbl_emax z 0 false.

Definition BETA_ALPHA : double := dbl_of_Z 1.
Definition BETA_BETA : double := dbl_of_Z 1.

(** [LabelContext] without the card database, which the functions below
    do not read. *)
Record LabelContext : Type := mkCtx {
  total_games : Z;
  total_wins : Z;
  card_stats : HashMap;
  pair_stats : HashMap
}.

Record LabelRecord : Type := mkRecord {
  card_a : Z; card_b : Z;
  n11 : Z; w11 : Z;
  n10 : Z; w10 : Z;
  n01 : Z; w01 : Z;
  n00 : Z; w00 : Z;
  p11 : double; p10 : double; p01 : double; p00 : double;
  syn_delta : double
}.


(** The duplicate-removing loop: [unique] is the filled part of the
    array, [cards] what is left of [present_cards]. *)
Fixpoint unique_loop (cards unique : list Z) : list Z :=
  match cards with
  | [] => unique
  | c :: rest =>
      if Z.of_nat (length unique) <? MAX_GAME_CARDS then
        if existsb (Z.eqb c) unique
        then unique_loop rest unique
        else unique_loop rest (unique ++ [c])
      else unique
  end.

(** A run of [hashmap_increment] calls, one per key, in order. *)
Fixpoint increment_all (map : HashMap) (keys : list Z) (win : bool)
  : option HashMap :=
  match keys with
  | [] => Some map
  | k :: rest =>
      match hashmap_increment map k win with
      | None => None
      | Some map1 => increment_all map1 rest win
      end
  end.

(** The keys the pair loop increments, in loop order: for each [i], the
    keys [pair_key(unique[i], unique[j])] for [j > i]. *)
Fixpoint pair_keys (unique : list Z) : list Z :=
  match unique with
  | [] => []
  | a :: rest => map (pair_key a) rest ++ pair_keys rest
  end.

(** [labels_process_game]; the array and its [count] are the list and its
    length. [None]: a map operation had no defined result. *)
Definition labels_process_game (ctx : LabelContext) (present_cards : list Z)
    (win : bool) : option LabelContext :=
  let games := wrap64 (total_games ctx + 1) in
  let wins := if win then wrap64 (total_wins ctx + 1) else total_wins ctx in
  if Z.of_nat (length present_cards) <=? 0
  then Some (mkCtx games wins (card_stats ctx) (pair_stats ctx))
  else
    let unique := unique_loop present_cards [] in
    match increment_all (card_stats ctx) unique win with
    | None => None
    | Some cs =>
        match increment_all (pair_stats ctx) (pair_keys unique) win with
        | None => None
        | Some ps => Some (mkCtx games wins cs ps)
        end
    end.

(** [labels_smooth_prob]: both operands are converted to [double] before
    the additions. *)
Definition labels_smooth_prob (wins games : Z) : double :=
  dbl_div (dbl_add (dbl_of_Z wins) BETA_ALPHA)
          (dbl_add (dbl_add (dbl_of_Z games) BETA_ALPHA) BETA_BETA).

(** Signed 64-bit subtraction and addition, two's complement. *)
Definition sub_int64 (x y : Z) : Z := to_int64 (x - y).
Definition add_int64 (x y : Z) : Z := to_int64 (x + y).

(** The six derived buckets, as the [int64_t] locals of
    [labels_compute_pair]. *)
Definition bucket_10 (x_a x_ab : Z) : Z :=
  sub_int64 (to_int64 x_a) (to_int64 x_ab).
Definition bucket_00 (X x_a x_b x_ab : Z) : Z :=
  add_int64 (sub_int64 (sub_int64 (to_int64 X) (to_int64 x_a)) (to_int64 x_b))
            (to_int64 x_ab).

(** [labels_compute_pair]: the context afterwards, and the record for
    return code 0 or [None] for -1. *)
Definition labels_compute_pair (ctx : LabelContext) (a b : Z)
  : LabelContext * option LabelRecord :=
  match hashmap_get (card_stats ctx) a with
  | None => (ctx, None)
  | Some pa =>
    let entry_a := entry_at (map_entries (card_stats ctx)) pa in
    let n_a := entry_n entry_a in
    let w_a := entry_w entry_a in
    match hashmap_get (card_stats ctx) b with
    | None => (ctx, None)
    | Some pb =>
      let entry_b := entry_at (map_entries (card_stats ctx)) pb in
      let n_b := entry_n entry_b in
      let w_b := entry_w entry_b in
      let pk := pair_key a b in
      match hashmap_get (pair_stats ctx) pk with
      | None => (ctx, None)
      | Some pab =>
        let entry_ab := entry_at (map_entries (pair_stats ctx)) pab in
        let n_ab := entry_n entry_ab in
        let w_ab := entry_w entry_ab in
        if n_ab <? MIN_BOTH_PRESENT then (ctx, None)
        else
          let N := total_games ctx in
          let W := total_wins ctx in
          if (W >? N) || (w_a >? n_a) || (w_b >? n_b) || (w_ab >? n_ab)
          then (ctx, None)
          else
            let i_n10 := bucket_10 n_a n_ab in
            let i_n01 := bucket_10 n_b n_ab in
            let i_n00 := bucket_00 N n_a n_b n_ab in
            let i_w10 := bucket_10 w_a w_ab in
            let i_w01 := bucket_10 w_b w_ab in
            let i_w00 := bucket_00 W w_a w_b w_ab in
            if (i_n10 <? 0) || (i_n01 <? 0) || (i_n00 <? 0)
               || (i_w10 <? 0) || (i_w01 <? 0) || (i_w00 <? 0)
            then (ctx, None)
            else
              let r_n11 := n_ab in
              let r_w11 := w_ab in
              let r_n10 := wrap64 i_n10 in
              let r_w10 := wrap64 i_w10 in
              let r_n01 := wrap64 i_n01 in
              let r_w01 := wrap64 i_w01 in
              let r_n00 := wrap64 i_n00 in
              let r_w00 := wrap64 i_w00 in
              if negb (wrap64 (wrap64 (wrap64 (r_n11 + r_n10) + r_n01) + r_n00) =? N)
                 || negb (wrap64 (wrap64 (wrap64 (r_w11 + r_w10) + r_w01) + r_w00) =? W)
              then (ctx, None)
              else
                let q11 := labels_smooth_prob r_w11 r_n11 in
                let q10 := labels_smooth_prob r_w10 r_n10 in
                let q01 := labels_smooth_prob r_w01 r_n01 in
                let q00 := labels_smooth_prob r_w00 r_n00 in
                (ctx,
                 Some (mkRecord a b r_n11 r_w11 r_n10 r_w10 r_n01 r_w01
                         r_n00 r_w00 q11 q10 q01 q00
                         (dbl_add (dbl_sub (dbl_sub q11 q10) q01) q00)))
      end
    end
  end.

(** ** train.h / train.c: the model and its binary file *)

Definition EMBED_DIM : Z := 16.
Definition MODEL_MAGIC : Z := 0x53594E31.
Definition MODEL_VERSION : Z := 1.

(** [float]: an IEEE-754 binary32 value, held as its 32-bit pattern; the
    arithmetic decodes, computes with rounding to nearest even, and
    encodes. *)
Definition flt_prec : Z := 24.
Definition flt_emax : Z := 128.

Definition flt_decode (bits : Z) : spec_float :=
  let sign := Z.testbit bits 31 in
  let expo := Z.land (Z.shiftr bits 23) 255 in
  let frac := Z.land bits 8388607 in
  if expo =? 0 then
    match frac with
    | Zpos m => S754_finite sign m (-149)
    | _ => S754_zero sign
    end
  else if expo =? 255 then
    if frac =? 0 then S754_infinity sign else S754_nan
  else
    match frac + 8388608 with
    | Zpos m => S754_finite sign m (expo - 150)
    | _ => S754_nan
    end.

Definition flt_encode (x : spec_float) : Z :=
  let signbit (s : bool) : Z := if s then 2147483648 else 0 in
  match x with
  | S754_zero s => signbit s
  | S754_infinity s => signbit s + 2139095040
  | S754_nan => 2143289344
  | S754_finite s m e =>
      if Zpos (digits2_pos m) =? flt_prec
      then signbit s + (e + 150) * 8388608 + (Zpos m - 8388608)
      else signbit s + Zpos m
  end.

Definition flt_add (x y : Z) : Z :=
  flt_encode (SFadd flt_prec flt_emax (flt_decode x) (flt_decode y)).
Definition flt_mul (x y : Z) : Z :=
  flt_encode (SFmul flt_prec flt_emax (flt_decode x) (flt_decode y)).

(** [0.0f]. *)
Definition flt_zero : Z := 0.

Record CardModel : Type := mkCard {
  card_id : Z;
  bias : Z;
  embedding : list Z
}.

(** [SynergyModel]; [cards] is the content of the array. *)
Record SynergyModel : Type := mkModel {
  cards : list CardModel;
  num_cards : Z;
  capacity : Z;
  global_bias : Z;
  embed_dim : Z
}.

Definition blank_card : CardModel := mkCard 0 0 [].

(** [cards[i]] and [embedding[j]]. *)
Definition card_at (cs : list CardModel) (i : Z) : CardModel :=
  default blank_card (cs !! Z.to_nat i).
Definition emb_at (e : list Z) (j : Z) : Z :=
  default 0 (e !! Z.to_nat j).

(** The loop of [model_find_card] from index [i]; the pointer returned is
    the index of the card. *)
Fixpoint find_card_from (fuel : nat) (cs : list CardModel) (i id : Z)
  : option Z :=
  match fuel with
  | O => None
  | S f =>
      if card_id (card_at cs i) =? id then Some i
      else find_card_from f cs (i + 1) id
  end.

Definition model_find_card (model : SynergyModel) (id : Z) : option Z :=
  find_card_from (Z.to_nat (num_cards model)) (cards model) 0 id.

(** The dot-product loop of [model_predict]. *)
Fixpoint dot_loop (fuel : nat) (ea eb : list Z) (i dot : Z) : Z :=
  match fuel with
  | O => dot
  | S f =>
      dot_loop f ea eb (i + 1) (flt_add dot (flt_mul (emb_at ea i) (emb_at eb i)))
  end.

Definition model_predict (model : SynergyModel) (a b : Z) : Z :=
  match model_find_card model a, model_find_card model b with
  | Some ia, Some ib =>
      let ma := card_at (cards model) ia in
      let mb := card_at (cards model) ib in
      let dot :=
        dot_loop (Z.to_nat (embed_dim model)) (embedding ma) (embedding mb) 0 flt_zero in
      flt_add (flt_add (flt_add dot (bias ma)) (bias mb)) (global_bias model)
  | _, _ => global_bias model
  end.

(** *** Bytes of the file *)

Definition byte_of_Z (z : Z) : byte :=
  match Byte.of_N (Z.to_N (z mod 256)) with
  | Some b => b
  | None => x00
  end.

Definition Z_of_byte (b : byte) : Z := Z.of_N (Byte.to_N b).

(** The [k] low bytes of [z], least significant first: what [fwrite]
    writes for an integer or a [float] of [k] bytes. *)
Fixpoint le_bytes (k : nat) (z : Z) : list byte :=
  match k with
  | O => []
  | S k' => byte_of_Z z :: le_bytes k' (z / 256)
  end.

(** The value [fread] stores for bytes read least significant first. *)
Fixpoint le_value (bs : list byte) : Z :=
  match bs with
  | [] => 0
  | b :: rest => Z_of_byte b + 256 * le_value rest
  end.

(** One [fread] of an object of [k] bytes: the value and the rest of the
    file, or [None] for a short read. *)
Definition fread_le (k : nat) (input : list byte) : option (Z * list byte) :=
  if (length input <? k)%nat then None
  else Some (le_value (take k input), drop k input).

(** [fwrite(card->embedding, sizeof(float), dim, fp)], from element [j]. *)
Fixpoint write_floats (fuel : nat) (e : list Z) (j : Z) : list byte :=
  match fuel with
  | O => []
  | S f => le_bytes 4 (emb_at e j) ++ write_floats f e (j + 1)
  end.

(** The card loop of [model_save], from card [i]. *)
Fixpoint write_cards (fuel : nat) (cs : list CardModel) (dim i : Z) : list byte :=
  match fuel with
  | O => []
  | S f =>
      let card := card_at cs i in
      le_bytes 8 (card_id card) ++ le_bytes 4 (bias card)
        ++ write_floats (Z.to_nat dim) (embedding card) 0
        ++ write_cards f cs dim (i + 1)
  end.

(** [model_save]: the bytes written to the file, once it is open. *)
Definition model_save (model : SynergyModel) : list byte :=
  let dim := embed_dim model mod 2 ^ 32 in
  let count := num_cards model mod 2 ^ 32 in
  le_bytes 4 MODEL_MAGIC ++ le_bytes 4 MODEL_VERSION
    ++ le_bytes 4 dim ++ le_bytes 4 count
    ++ write_cards (Z.to_nat (num_cards model)) (cards model) dim 0
    ++ le_bytes 4 (global_bias model).

(** [fread(card->embedding, sizeof(float), dim, fp)]. *)
Fixpoint read_floats (fuel : nat) (input : list byte)
  : option (list Z * list byte) :=
  match fuel with
  | O => Some ([], input)
  | S f =>
      match fread_le 4 input with
      | None => None
      | Some (x, rest) =>
          match read_floats f rest with
          | None => None
          | Some (xs, rest') => Some (x :: xs, rest')
          end
      end
  end.

(** The card loop of [model_load]. *)
Fixpoint read_cards (fuel : nat) (dim : Z) (input : list byte)
  : option (list CardModel * list byte) :=
  match fuel with
  | O => Some ([], input)
  | S f =>
      match fread_le 8 input with
      | None => None
      | Some (id, in1) =>
        match fread_le 4 in1 with
        | None => None
        | Some (b, in2) =>
          match read_floats (Z.to_nat dim) in2 with
          | None => None
          | Some (e, in3) =>
              let card :=
                mkCard id b (e ++ replicate (Z.to_nat (EMBED_DIM - dim)) flt_zero) in
              match read_cards f dim in3 with
              | None => None
              | Some (cs, rest) => Some (card :: cs, rest)
              end
          end
        end
      end
  end.

(** [model_load] on the bytes of the file, once it is open: the model
    for return code 0, [None] for -1. *)
Definition model_load (input : list byte) : option SynergyModel :=
  match fread_le 4 input with
  | None => None
  | Some (magic, in1) =>
    match fread_le 4 in1 with
    | None => None
    | Some (version, in2) =>
      match fread_le 4 in2 with
      | None => None
      | Some (dim, in3) =>
        match fread_le 4 in3 with
        | None => None
        | Some (count, in4) =>
          if negb (magic =? MODEL_MAGIC) || negb (version =? MODEL_VERSION)
          then None
          else if dim >? EMBED_DIM then None
          else
            let cap := if count >? 1024 then count else 1024 in
            match read_cards (Z.to_nat count) dim in4 with
            | None => None
            | Some (cs, in5) =>
                match fread_le 4 in5 with
                | None => None
                | Some (gb, _) => Some (mkModel cs count cap gb dim)
                end
            end
        end
      end
    end
  end.

(** ** Specification vocabulary for the counting store *)

(** A slot holds an entry when its key is neither sentinel. *)
Definition is_live (e : HashEntry) : bool :=
  negb (entry_key e =? HASH_EMPTY_KEY) && negb (entry_key e =? HASH_TOMBSTONE).

Fixpoint live_count (es : list HashEntry) : Z :=
  match es with
  | [] => 0
  | e :: rest => (if is_live e then 1 else 0) + live_count rest
  end.

(** A key a caller may store: a 64-bit value other than the sentinels. *)
Definition valid_key (k : Z) : Prop := 0 <= k < HASH_TOMBSTONE.

Definition entry_ok (e : HashEntry) : Prop :=
  in_u64 (entry_key e) /\ entry_key e <> HASH_TOMBSTONE
  /\ in_u64 (entry_n e) /\ in_u64 (entry_w e).

(** The counts stored for a key, through [hashmap_get]. *)
Definition lookup_counts (map : HashMap) (key : Z) : option (Z * Z) :=
  match hashmap_get map key with
  | Some p =>
      Some (entry_n (entry_at (map_entries map) p),
            entry_w (entry_at (map_entries map) p))
  | None => None
  end.

(** Representation invariant of a map built by [hashmap_init] and grown by
    [hashmap_put]: a power-of-two array without tombstones, [size] the
    number of live slots and below the load limit, and every live slot
    found again by probing for its key. *)
Record map_wf (m : HashMap) : Prop := mk_map_wf {
  wf_cap : exists j, 4 <= j <= 59 /\ map_capacity m = 2 ^ j;
  wf_len : Z.of_nat (length (map_entries m)) = map_capacity m;
  wf_tomb : map_tombstones m = 0;
  wf_entries : Forall entry_ok (map_entries m);
  wf_size : map_size m = live_count (map_entries m);
  wf_load : map_size m * 10 <= map_capacity m * 7 + 10;
  wf_chain : forall p, 0 <= p < map_capacity m ->
    is_live (entry_at (map_entries m) p) = true ->
    hashmap_get m (entry_key (entry_at (map_entries m) p)) = Some p
}.

(** The first slot of the probe sequence that holds [key] ([true]) or is
    empty ([false]): what both probe loops look for. *)
Fixpoint scan (fuel : nat) (es : list HashEntry) (mask idx i key : Z)
  : option (Z * bool) :=
  match fuel with
  | O => None
  | S f =>
      let probe := Z.land (wrap64 (idx + i)) mask in
      if entry_key (entry_at es probe) =? key then Some (probe, true)
      else if entry_key (entry_at es probe) =? HASH_EMPTY_KEY then Some (probe, false)
      else scan f es mask idx (i + 1) key
  end.

(** First slot of the probe sequence of [k] in a table of [c] slots. *)
Definition home (c k : Z) : Z := hash_u64 k mod c.

(** The probe loop of [hashmap_put] on the whole table. *)
Definition put_here (m : HashMap) (k : Z) : HashMap * option Z :=
  put_probe (Z.to_nat (map_capacity m)) m (wrap64 (map_capacity m - 1))
    (Z.land (hash_u64 k) (wrap64 (map_capacity m - 1))) 0 SIZE_MAX k.

(** [entry->n = n; entry->w = w]: the map after the two stores. *)
Definition with_counts (m : HashMap) (p n w : Z) : HashMap :=
  mkMap (set_counts (map_entries m) p n w)
        (map_capacity m) (map_size m) (map_tombstones m).

(** The counts found for [k] among the slots below [i] of a table. *)
Definition lookup_below (old : HashMap) (i k : Z) : option (Z * Z) :=
  match hashmap_get old k with
  | Some p => if p <? i then lookup_counts old k else None
  | None => None
  end.

(** What a successful [hashmap_put m k] leaves: map [m'] and slot [p]. *)
Definition put_post (m : HashMap) (k : Z) (m' : HashMap) (p : Z) : Prop :=
  map_wf m'
  /\ 0 <= p < map_capacity m'
  /\ hashmap_get m' k = Some p
  /\ lookup_counts m' k = Some (default (0, 0) (lookup_counts m k))
  /\ (forall k', k' <> k -> lookup_counts m' k' = lookup_counts m k')
  /\ (map_capacity m' = map_capacity m
      \/ (map_capacity m' = 2 * map_capacity m
          /\ map_size m * 10 > map_capacity m * 7))
  /\ map_size m' = map_size m
                   + match lookup_counts m k with Some _ => 0 | None => 1 end.

(** One call of [hashmap_increment] on a pair of counts. *)
Definition bump (win : bool) (c : Z * Z) : Z * Z :=
  (wrap64 (fst c + 1), if win then wrap64 (snd c + 1) else snd c).

(** The operations that change a map: the two public ones and the resize
    that [hashmap_put] runs. *)
Inductive map_op : Type :=
  | OpPut (key : Z)
  | OpIncrement (key : Z) (win : bool)
  | OpResize.

Definition op_typed (op : map_op) : Prop :=
  match op with
  | OpPut key => in_u64 key
  | OpIncrement key _ => in_u64 key
  | OpResize => True
  end.

Definition run_op (m : HashMap) (op : map_op) : option HashMap :=
  match op with
  | OpPut key =>
      match hashmap_put m key with
      | Some (m', _) => Some m'
      | None => None
      end
  | OpIncrement key win => hashmap_increment m key win
  | OpResize =>
      match hashmap_resize m with
      | Some (m', _) => Some m'
      | None => None
      end
  end.

Fixpoint run_ops (m : HashMap) (ops : list map_op) : option HashMap :=
  match ops with
  | [] => Some m
  | op :: rest =>
      match run_op m op with
      | Some m' => run_ops m' rest
      | None => None
      end
  end.

(** A map reached from [hashmap_init] by the sequence [ops]. *)
Definition reached_by (ops : list map_op) (m : HashMap) : Prop :=
  exists c m0, hashmap_init c = Some m0 /\ Forall op_typed ops
               /\ run_ops m0 ops = Some m.


(** ** Vocabulary of the statements *)

(** What [hashmap_increment m k win] leaves when the key went in. *)
Definition increment_post (m : HashMap) (k : Z) (win : bool) (m' : HashMap) : Prop :=
  map_wf m'
  /\ lookup_counts m' k = Some (bump win (default (0, 0) (lookup_counts m k)))
  /\ (forall k', k' <> k -> lookup_counts m' k' = lookup_counts m k')
  /\ (map_capacity m' = map_capacity m
      \/ (map_capacity m' = 2 * map_capacity m
          /\ map_size m * 10 > map_capacity m * 7))
  /\ map_size m' = map_size m
                   + match lookup_counts m k with Some _ => 0 | None => 1 end.

(** Every stored pair of counts has [w <= n <= s]. *)
Definition counts_below (s : Z) (m : HashMap) : Prop :=
  forall k n w, lookup_counts m k = Some (n, w) -> 0 <= w <= n /\ n <= s.

(** The sequence that wraps a counter: one winning increment of key 1,
    then 2^64 - 1 losing ones. *)
Definition wrap_ops : list map_op :=
  OpIncrement 1 true :: replicate (Z.to_nat (2 ^ 64 - 1)) (OpIncrement 1 false).

(** The counters of a context hold 64-bit values. *)
Definition counts_typed (m : HashMap) : Prop :=
  Forall (fun e => in_u64 (entry_n e) /\ in_u64 (entry_w e)) (map_entries m).

(** * labels_compute_pair *)
Definition ctx_typed (ctx : LabelContext) : Prop :=
  in_u64 (total_games ctx) /\ in_u64 (total_wins ctx)
  /\ counts_typed (card_stats ctx) /\ counts_typed (pair_stats ctx).

(** The result of [labels_compute_pair] once the three lookups are known. *)
Definition pair_result (ctx : LabelContext) (a b : Z) (ea eb eab : HashEntry)
  : option LabelRecord :=
  let n_a := entry_n ea in let w_a := entry_w ea in
  let n_b := entry_n eb in let w_b := entry_w eb in
  let n_ab := entry_n eab in let w_ab := entry_w eab in
  let N := total_games ctx in let W := total_wins ctx in
  if n_ab <? MIN_BOTH_PRESENT then None
  else if (W >? N) || (w_a >? n_a) || (w_b >? n_b) || (w_ab >? n_ab) then None
  else if (bucket_10 n_a n_ab <? 0) || (bucket_10 n_b n_ab <? 0)
          || (bucket_00 N n_a n_b n_ab <? 0)
          || (bucket_10 w_a w_ab <? 0) || (bucket_10 w_b w_ab <? 0)
          || (bucket_00 W w_a w_b w_ab <? 0) then None
  else
    let r_n10 := wrap64 (bucket_10 n_a n_ab) in
    let r_w10 := wrap64 (bucket_10 w_a w_ab) in
    let r_n01 := wrap64 (bucket_10 n_b n_ab) in
    let r_w01 := wrap64 (bucket_10 w_b w_ab) in
    let r_n00 := wrap64 (bucket_00 N n_a n_b n_ab) in
    let r_w00 := wrap64 (bucket_00 W w_a w_b w_ab) in
    if negb (wrap64 (wrap64 (wrap64 (n_ab + r_n10) + r_n01) + r_n00) =? N)
       || negb (wrap64 (wrap64 (wrap64 (w_ab + r_w10) + r_w01) + r_w00) =? W)
    then None
    else
      let q11 := labels_smooth_prob w_ab n_ab in
      let q10 := labels_smooth_prob r_w10 r_n10 in
      let q01 := labels_smooth_prob r_w01 r_n01 in
      let q00 := labels_smooth_prob r_w00 r_n00 in
      Some (mkRecord a b n_ab w_ab r_n10 r_w10 r_n01 r_w01 r_n00 r_w00
              q11 q10 q01 q00 (dbl_add (dbl_sub (dbl_sub q11 q10) q01) q00)).

(** The three entries [labels_compute_pair] reads, when all are there. *)
Definition pair_entries (ctx : LabelContext) (a b : Z)
  : option (HashEntry * HashEntry * HashEntry) :=
  match hashmap_get (card_stats ctx) a, hashmap_get (card_stats ctx) b,
        hashmap_get (pair_stats ctx) (pair_key a b) with
  | Some pa, Some pb, Some pab =>
      Some (entry_at (map_entries (card_stats ctx)) pa,
            entry_at (map_entries (card_stats ctx)) pb,
            entry_at (map_entries (pair_stats ctx)) pab)
  | _, _, _ => None
  end.

(** A run of games, each the list of cards present and the win flag. *)
Fixpoint process_games (ctx : LabelContext) (games : list (list Z * bool))
  : option LabelContext :=
  match games with
  | [] => Some ctx
  | (present_cards, win) :: rest =>
      match labels_process_game ctx present_cards win with
      | Some ctx1 => process_games ctx1 rest
      | None => None
      end
  end.






(** A small context: 1000 games over cards 1 and 2, processed from two
    16-slot tables. *)
Definition example_games : list (list Z * bool) :=
  replicate 340 ([1; 2], true) ++ replicate 170 ([1; 2], false)
  ++ replicate 40 ([1], true) ++ replicate 50 ([1], false)
  ++ replicate 10 ([2], true) ++ replicate 30 ([2], false)
  ++ replicate 210 ([], true) ++ replicate 150 ([], false).

Definition small_ctx : LabelContext :=
  mkCtx 0 0 (mkMap (replicate 16 empty_entry) 16 0 0)
            (mkMap (replicate 16 empty_entry) 16 0 0).

Definition example_ctx :=
  Eval vm_compute in
    match process_games small_ctx example_games with
    | Some ctx => ctx
    | None => small_ctx
    end.

Definition example_record :=
  Eval vm_compute in
    match snd (labels_compute_pair example_ctx 1 2) with
    | Some r => r
    | None => mkRecord 0 0 0 0 0 0 0 0 0 0 S754_nan S754_nan S754_nan S754_nan S754_nan
    end.

(** The typing of the counters, as a check that computes. *)
Definition counts_typedb (m : HashMap) : bool :=
  forallb (fun e => (0 <=? entry_n e) && (entry_n e <? 2 ^ 64)
                    && (0 <=? entry_w e) && (entry_w e <? 2 ^ 64))
          (map_entries m).

Definition ctx_typedb (ctx : LabelContext) : bool :=
  (0 <=? total_games ctx) && (total_games ctx <? 2 ^ 64)
  && (0 <=? total_wins ctx) && (total_wins ctx <? 2 ^ 64)
  && counts_typedb (card_stats ctx) && counts_typedb (pair_stats ctx).

(** A 16-slot map holding key 5, reached by one [hashmap_put]. *)
Definition map_16 : HashMap := mkMap (replicate 16 empty_entry) 16 0 0.

(** The counts of the specification's rejected scenario: 1000 games, card
    1 in 500 of them, card 2 in 400, both in 510. *)
Definition inconsistent_ctx :=
  Eval vm_compute in
    mkCtx 1000 600
      (with_counts (with_counts (card_stats example_ctx) 4 500 300) 7 400 250)
      (with_counts (pair_stats example_ctx) 6 510 340).

(** Key 5 after one winning and one losing increment. *)
Definition map_after_two :=
  Eval vm_compute in
    match run_ops map_16 [OpIncrement 5 true; OpIncrement 5 false] with
    | Some m => m
    | None => map_16
    end.

(** A [float] field holds a 32-bit pattern. *)
Definition float_bits (x : Z) : Prop := 0 <= x < 2 ^ 32.

(** * The model file *)
Definition card_wf (c : CardModel) : Prop :=
  in_u64 (card_id c) /\ float_bits (bias c) /\ Forall float_bits (embedding c).

(** Representation invariant of a model: its fields hold values of their C
    types and the embedding dimension fits the array. *)
Definition model_wf (m : SynergyModel) : Prop :=
  0 <= num_cards m
  /\ 0 <= embed_dim m <= EMBED_DIM
  /\ float_bits (global_bias m)
  /\ Forall card_wf (take (Z.to_nat (num_cards m)) (cards m)).

(** A card as [model_load] rebuilds it from what [model_save] wrote. *)
Definition reload_card (dim : Z) (c : CardModel) : CardModel :=
  mkCard (card_id c) (bias c)
    (map (fun j => emb_at (embedding c) (Z.of_nat j)) (seq 0 (Z.to_nat dim))
     ++ replicate (Z.to_nat (EMBED_DIM - dim)) flt_zero).

(** A card with id 7, zero bias and a zero embedding. *)
Definition card_7 : CardModel := mkCard 7 0 (replicate 16 0).

(** A model of 2^32 cards, with global bias [1.0f]. *)
Definition oversized_model : SynergyModel :=
  mkModel (replicate (Z.to_nat (2 ^ 32)) card_7) (2 ^ 32) (2 ^ 32) 1065353216 16.

(** A model of two cards. *)
Definition small_model : SynergyModel :=
  mkModel [mkCard 7 1036831949 (replicate 16 1028443341);
           mkCard 9 0 (replicate 16 3184315597)]
          2 1024 1065353216 16.



(** * Proofs *)

(** The proofs never compute a hash. *)
#[local] Opaque hash_u64.

Lemma low32_is_mod (z : Z) : Z.land z 4294967295 = z mod 2 ^ 32.
Proof. change 4294967295 with (Z.ones 32). apply Z.land_ones. lia. Qed.

Lemma low32_range (z : Z) : 0 <= Z.land z 4294967295 < 2 ^ 32.
Proof. rewrite low32_is_mod. apply Z.mod_pos_bound. lia. Qed.

(** Packing two 32-bit halves: the [|] adds, and nothing wraps. *)
Lemma pack_halves (hi lo : Z) :
  0 <= hi < 2 ^ 32 -> 0 <= lo < 2 ^ 32 ->
  Z.lor (wrap64 (Z.shiftl hi 32)) lo = hi * 2 ^ 32 + lo.
Proof.
  intros Hhi Hlo. unfold wrap64.
  rewrite Z.shiftl_mul_pow2 by lia.
  rewrite Z.mod_small by lia.
  rewrite <- Z.shiftl_mul_pow2 by lia.
  rewrite <- Z.lxor_lor, <- Z.add_nocarry_lxor; try reflexivity.
  all: apply Z.bits_inj'; intros i Hi; rewrite Z.land_spec, Z.bits_0;
    destruct (Z.ltb_spec i 32) as [Hlt | Hge];
    [ rewrite Z.shiftl_spec_low by lia; reflexivity
    | rewrite (Z.bits_above_log2 lo i), andb_false_r; [reflexivity | lia | ] ].
  all: destruct (Z.eq_dec lo 0) as [-> | Hne]; [simpl; lia | ];
    apply Z.lt_le_trans with 32; [ apply Z.log2_lt_pow2; lia | lia ].
Qed.

Lemma pair_key_value (a b : Z) :
  pair_key a b
  = (Z.min a b mod 2 ^ 32) * 2 ^ 32 + Z.max a b mod 2 ^ 32.
Proof.
  unfold pair_key.
  rewrite pack_halves by apply low32_range.
  rewrite !low32_is_mod.
  destruct (Z.gtb_spec a b) as [Hgt | Hle].
  - rewrite Z.min_r, Z.max_l by lia. reflexivity.
  - rewrite Z.min_l, Z.max_r by lia. reflexivity.
Qed.


Lemma pair_decode_value (k : Z) :
  pair_decode k = ((k / 2 ^ 32) mod 2 ^ 32, k mod 2 ^ 32).
Proof.
  unfold pair_decode. rewrite !low32_is_mod, Z.shiftr_div_pow2 by lia. reflexivity.
Qed.

Lemma pair_key_comm (a b : Z) : pair_key a b = pair_key b a.
Proof. rewrite !pair_key_value, Z.min_comm, Z.max_comm. reflexivity. Qed.

(** C3: [pair_key] does not depend on the order of its arguments, and
    [pair_decode] of [pair_key a b] gives the low 32 bits of the smaller id
    and of the larger id, that is, the low-32-bit truncations of [a] and
    [b] as an unordered pair. *)
Theorem pair_key_symmetric_and_decodes (a b : Z) :
  pair_key a b = pair_key b a
  /\ pair_decode (pair_key a b)
     = (Z.min a b mod 2 ^ 32, Z.max a b mod 2 ^ 32)
  /\ (pair_decode (pair_key a b) = (a mod 2 ^ 32, b mod 2 ^ 32)
      \/ pair_decode (pair_key a b) = (b mod 2 ^ 32, a mod 2 ^ 32)).
Proof.
  assert (Hdec : pair_decode (pair_key a b)
                 = (Z.min a b mod 2 ^ 32, Z.max a b mod 2 ^ 32)).
  { rewrite pair_decode_value, pair_key_value.
    pose proof (Z.mod_pos_bound (Z.min a b) (2 ^ 32) ltac:(lia)) as Hlo.
    pose proof (Z.mod_pos_bound (Z.max a b) (2 ^ 32) ltac:(lia)) as Hhi.
    f_equal.
    - rewrite Z.div_add_l, (Z.div_small (Z.max a b mod 2 ^ 32)) by lia.
      rewrite Z.add_0_r. apply Z.mod_small. lia.
    - rewrite Z.add_comm, Z.mod_add by lia. apply Z.mod_small. lia. }
  split; [ | split ].
  - apply pair_key_comm.
  - exact Hdec.
  - rewrite Hdec. destruct (Z.le_ge_cases a b).
    + left. rewrite Z.min_l, Z.max_r by lia. reflexivity.
    + right. rewrite Z.min_r, Z.max_l by lia. reflexivity.
Qed.

(** * Counting store: arithmetic of the probe sequence *)

Lemma wrap64_small (z : Z) : 0 <= z < 2 ^ 64 -> wrap64 z = z.
Proof. intros H. unfold wrap64. apply Z.mod_small. exact H. Qed.

Lemma wrap64_range (z : Z) : 0 <= wrap64 z < 2 ^ 64.
Proof. unfold wrap64. apply Z.mod_pos_bound. lia. Qed.

Lemma pow2_bounds (j : Z) : 4 <= j <= 59 -> 16 <= 2 ^ j <= 2 ^ 59.
Proof.
  intros H. split.
  - change 16 with (2 ^ 4). apply Z.pow_le_mono_r; lia.
  - apply Z.pow_le_mono_r; lia.
Qed.

Lemma mask_land (j x : Z) :
  0 <= j <= 59 -> Z.land x (wrap64 (2 ^ j - 1)) = x mod 2 ^ j.
Proof.
  intros Hj.
  assert (0 < 2 ^ j <= 2 ^ 59).
  { split; [apply Z.pow_pos_nonneg; lia | apply Z.pow_le_mono_r; lia]. }
  rewrite wrap64_small by lia.
  replace (2 ^ j - 1) with (Z.ones j) by (rewrite Z.ones_equiv; lia).
  apply Z.land_ones. lia.
Qed.

(** The slot probed at iteration [i] for a key whose first slot is [idx]. *)
Lemma probe_slot (j idx i : Z) :
  0 <= j <= 59 -> 0 <= idx < 2 ^ j -> 0 <= i <= 2 ^ j ->
  Z.land (wrap64 (idx + i)) (wrap64 (2 ^ j - 1)) = (idx + i) mod 2 ^ j.
Proof.
  intros Hj Hidx Hi.
  assert (2 ^ j <= 2 ^ 59) by (apply Z.pow_le_mono_r; lia).
  rewrite mask_land by lia. rewrite wrap64_small by lia. reflexivity.
Qed.

Lemma first_slot_range (j h : Z) :
  0 <= j <= 59 -> 0 <= Z.land h (wrap64 (2 ^ j - 1)) < 2 ^ j.
Proof.
  intros Hj. rewrite mask_land by lia. apply Z.mod_pos_bound.
  apply Z.pow_pos_nonneg; lia.
Qed.

(** Every slot is met by the probe sequence within [capacity] steps. *)
Lemma probe_reaches (c idx q : Z) :
  0 < c -> 0 <= idx < c -> 0 <= q < c ->
  exists t, 0 <= t < c /\ (idx + t) mod c = q.
Proof.
  intros Hc Hidx Hq. exists ((q - idx) mod c). split.
  - apply Z.mod_pos_bound. lia.
  - rewrite Zplus_mod_idemp_r. replace (idx + (q - idx)) with q by lia.
    apply Z.mod_small. lia.
Qed.

(** Two iterations below [capacity] meet different slots. *)
Lemma probe_injective (c idx s t : Z) :
  0 < c -> 0 <= s < c -> 0 <= t < c ->
  (idx + s) mod c = (idx + t) mod c -> s = t.
Proof.
  intros Hc Hs Ht Heq.
  assert (Hd : (s - t) mod c = 0).
  { replace (s - t) with ((idx + s) - (idx + t)) by lia.
    rewrite Zminus_mod, Heq, Z.sub_diag. apply Z.mod_0_l. lia. }
  apply Z.mod_divide in Hd; [ | lia ]. destruct Hd as [k Hk].
  assert (k = 0) by nia. lia.
Qed.

(** * Entry arrays *)

Lemma entry_at_lookup (es : list HashEntry) (p : Z) (e : HashEntry) :
  es !! Z.to_nat p = Some e -> entry_at es p = e.
Proof. intros H. unfold entry_at. rewrite H. reflexivity. Qed.

Lemma entry_at_in_range (es : list HashEntry) (p : Z) :
  0 <= p < Z.of_nat (length es) ->
  es !! Z.to_nat p = Some (entry_at es p).
Proof.
  intros H. destruct (lookup_lt_is_Some_2 es (Z.to_nat p)) as [e He]; [lia | ].
  rewrite He. f_equal. symmetry. apply entry_at_lookup. exact He.
Qed.

Lemma entry_at_insert_eq (es : list HashEntry) (p : Z) (e : HashEntry) :
  0 <= p < Z.of_nat (length es) ->
  entry_at (<[Z.to_nat p := e]> es) p = e.
Proof.
  intros H. apply entry_at_lookup. apply list_lookup_insert_eq. lia.
Qed.

Lemma entry_at_insert_ne (es : list HashEntry) (p q : Z) (e : HashEntry) :
  0 <= p -> 0 <= q -> p <> q ->
  entry_at (<[Z.to_nat q := e]> es) p = entry_at es p.
Proof.
  intros Hp Hq Hne. unfold entry_at.
  rewrite list_lookup_insert_ne by lia. reflexivity.
Qed.

Lemma entry_at_replicate (c p : Z) :
  entry_at (replicate (Z.to_nat c) empty_entry) p = empty_entry.
Proof.
  unfold entry_at.
  destruct (replicate (Z.to_nat c) empty_entry !! Z.to_nat p) as [e | ] eqn:He;
    [ | reflexivity ].
  apply lookup_replicate in He. destruct He as [-> _]. reflexivity.
Qed.

Lemma entry_ok_at (es : list HashEntry) (p : Z) :
  Forall entry_ok es -> 0 <= p < Z.of_nat (length es) -> entry_ok (entry_at es p).
Proof.
  intros Hall Hp. rewrite Forall_lookup in Hall.
  apply (Hall (Z.to_nat p)). apply entry_at_in_range. exact Hp.
Qed.

Lemma live_count_range (es : list HashEntry) :
  0 <= live_count es <= Z.of_nat (length es).
Proof.
  induction es as [ | e es IH]; simpl; [lia | ].
  destruct (is_live e); lia.
Qed.

Lemma live_count_insert (es : list HashEntry) (q : nat) (e e' : HashEntry) :
  es !! q = Some e ->
  live_count (<[q := e']> es)
  = live_count es - (if is_live e then 1 else 0) + (if is_live e' then 1 else 0).
Proof.
  revert q. induction es as [ | x es IH]; intros q Hq; [discriminate | ].
  destruct q as [ | q]; simpl in *.
  - injection Hq as ->. lia.
  - rewrite (IH q Hq). lia.
Qed.

Lemma live_count_replicate (k : nat) : live_count (replicate k empty_entry) = 0.
Proof. induction k as [ | k IH]; simpl; [reflexivity | exact IH]. Qed.

Lemma live_count_take_le (es : list HashEntry) (k : nat) :
  live_count (take k es) <= live_count es.
Proof.
  revert k. induction es as [ | e es IH]; intros [ | k]; simpl; try lia.
  - pose proof (live_count_range es). destruct (is_live e); lia.
  - specialize (IH k). lia.
Qed.

Lemma live_count_take_S (es : list HashEntry) (k : nat) (e : HashEntry) :
  es !! k = Some e ->
  live_count (take (S k) es) = live_count (take k es) + (if is_live e then 1 else 0).
Proof.
  revert k. induction es as [ | x es IH]; intros k Hk; [discriminate | ].
  destruct k as [ | k].
  - simpl in *. injection Hk as ->. destruct es; simpl; lia.
  - simpl in Hk. change (take (S (S k)) (x :: es)) with (x :: take (S k) es).
    change (take (S k) (x :: es)) with (x :: take k es).
    simpl. rewrite (IH k Hk). lia.
Qed.

(** A table with fewer live slots than slots, and no tombstone, has an
    empty slot. *)
Lemma empty_slot_exists (es : list HashEntry) :
  Forall entry_ok es -> live_count es < Z.of_nat (length es) ->
  exists q, 0 <= q < Z.of_nat (length es)
            /\ entry_key (entry_at es q) = HASH_EMPTY_KEY.
Proof.
  induction es as [ | e es IH]; intros Hok Hlt; simpl in *; [lia | ].
  apply Forall_cons in Hok. destruct Hok as [He Hes].
  destruct (is_live e) eqn:Hlive.
  - destruct IH as (q & Hq & Hkey); [exact Hes | lia | ].
    exists (q + 1). split; [lia | ].
    unfold entry_at in *. replace (Z.to_nat (q + 1)) with (S (Z.to_nat q)) by lia.
    exact Hkey.
  - exists 0. split; [lia | ]. unfold entry_at. simpl.
    unfold is_live in Hlive. destruct He as (_ & Hnt & _).
    destruct (Z.eqb_spec (entry_key e) HASH_EMPTY_KEY) as [-> | Hne]; [reflexivity | ].
    destruct (Z.eqb_spec (entry_key e) HASH_TOMBSTONE); [contradiction | discriminate].
Qed.

(** * The probe loops *)

Section Probe.
Variables (es : list HashEntry) (mask idx key : Z).

Let pr (x : Z) : Z := Z.land (wrap64 (idx + x)) mask.
Let keyat (q : Z) : Z := entry_key (entry_at es q).

(** What [scan] returns, in terms of the slots it passed. *)
Lemma scan_Some (f : nat) (i p : Z) (b : bool) :
  scan f es mask idx i key = Some (p, b) <->
  exists t, 0 <= t < Z.of_nat f /\ p = pr (i + t)
    /\ (if b then keyat p = key
        else keyat p = HASH_EMPTY_KEY /\ keyat p <> key)
    /\ forall s, 0 <= s < t ->
         keyat (pr (i + s)) <> key /\ keyat (pr (i + s)) <> HASH_EMPTY_KEY.
Proof.
  revert i. induction f as [ | f IH]; intros i.
  - simpl. split; [discriminate | ]. intros (t & Ht & _). lia.
  - cbn [scan]. fold (pr i). fold (keyat (pr i)).
    destruct (Z.eqb_spec (keyat (pr i)) key) as [Hk | Hk].
    + split.
      * intros [= <- <-]. exists 0. rewrite Z.add_0_r.
        repeat split; try lia; try assumption.
      * intros (t & Ht & -> & Hb & Hbefore).
        destruct (Z.eq_dec t 0) as [-> | Hne].
        -- rewrite Z.add_0_r in *. destruct b; [reflexivity | ].
           destruct Hb as [_ Hb]. contradiction.
        -- destruct (Hbefore 0) as [Hc _]; [lia | ].
           rewrite Z.add_0_r in Hc. contradiction.
    + destruct (Z.eqb_spec (keyat (pr i)) HASH_EMPTY_KEY) as [He | He].
      * split.
        -- intros [= <- <-]. exists 0. rewrite Z.add_0_r.
           repeat split; try lia; assumption.
        -- intros (t & Ht & -> & Hb & Hbefore).
           destruct (Z.eq_dec t 0) as [-> | Hne].
           ++ rewrite Z.add_0_r in *. destruct b; [contradiction | reflexivity].
           ++ destruct (Hbefore 0) as [_ Hc]; [lia | ].
              rewrite Z.add_0_r in Hc. contradiction.
      * rewrite IH. split.
        -- intros (t & Ht & -> & Hb & Hbefore). exists (t + 1).
           replace (i + (t + 1)) with (i + 1 + t) by lia.
           repeat split; try lia; try exact Hb.
           ++ destruct (Z.eq_dec s 0) as [-> | Hne].
              ** rewrite Z.add_0_r. exact Hk.
              ** replace (i + s) with (i + 1 + (s - 1)) by lia.
                 apply Hbefore. lia.
           ++ destruct (Z.eq_dec s 0) as [-> | Hne].
              ** rewrite Z.add_0_r. exact He.
              ** replace (i + s) with (i + 1 + (s - 1)) by lia.
                 apply Hbefore. lia.
        -- intros (t & Ht & -> & Hb & Hbefore).
           destruct (Z.eq_dec t 0) as [-> | Hne].
           { rewrite Z.add_0_r in Hb. destruct b; [contradiction | ].
             destruct Hb as [Hb _]. contradiction. }
           exists (t - 1). replace (i + 1 + (t - 1)) with (i + t) by lia.
           repeat split; try lia; try exact Hb.
           all: replace (i + 1 + s) with (i + (s + 1)) by lia;
             apply Hbefore; lia.
Qed.

(** The scan stops when an empty slot is within reach. *)
Lemma scan_stops (f : nat) (i t : Z) :
  0 <= t < Z.of_nat f -> keyat (pr (i + t)) = HASH_EMPTY_KEY ->
  scan f es mask idx i key <> None.
Proof.
  revert i t. induction f as [ | f IH]; intros i t Ht He; [lia | ].
  cbn [scan]. fold (pr i). fold (keyat (pr i)).
  destruct (keyat (pr i) =? key); [discriminate | ].
  destruct (Z.eqb_spec (keyat (pr i)) HASH_EMPTY_KEY) as [Hi | Hi]; [discriminate | ].
  destruct (Z.eq_dec t 0) as [-> | Hne].
  - rewrite Z.add_0_r in He. contradiction.
  - apply (IH (i + 1) (t - 1)); [lia | ].
    replace (i + 1 + (t - 1)) with (i + t) by lia. exact He.
Qed.

Lemma get_probe_scan (f : nat) (i : Z) :
  get_probe f es mask idx i key
  = match scan f es mask idx i key with
    | Some (p, true) => Some p
    | _ => None
    end.
Proof.
  revert i. induction f as [ | f IH]; intros i; [reflexivity | ].
  cbn [get_probe scan].
  destruct (entry_key (entry_at es (Z.land (wrap64 (idx + i)) mask)) =? key);
    [reflexivity | ].
  destruct (entry_key (entry_at es (Z.land (wrap64 (idx + i)) mask)) =? HASH_EMPTY_KEY);
    [reflexivity | ].
  apply IH.
Qed.
End Probe.

Lemma put_probe_scan (f : nat) (m : HashMap) (mask idx i key : Z) :
  (forall q, entry_key (entry_at (map_entries m) q) <> HASH_TOMBSTONE) ->
  put_probe f m mask idx i SIZE_MAX key
  = match scan f (map_entries m) mask idx i key with
    | Some (p, true) => (m, Some p)
    | Some (p, false) =>
        (mkMap (<[Z.to_nat p := mkEntry key 0 0]> (map_entries m))
               (map_capacity m) (wrap64 (map_size m + 1)) (map_tombstones m),
         Some p)
    | None => (m, None)
    end.
Proof.
  intros Hnt. revert i. induction f as [ | f IH]; intros i; [reflexivity | ].
  cbn [put_probe scan].
  destruct (entry_key (entry_at (map_entries m) (Z.land (wrap64 (idx + i)) mask)) =? key);
    [reflexivity | ].
  destruct (Z.eqb_spec
              (entry_key (entry_at (map_entries m) (Z.land (wrap64 (idx + i)) mask)))
              HASH_TOMBSTONE) as [Ht | Ht]; [elim (Hnt _ Ht) | ].
  cbn [andb]. rewrite Z.eqb_refl. cbn [negb].
  destruct (entry_key (entry_at (map_entries m) (Z.land (wrap64 (idx + i)) mask))
            =? HASH_EMPTY_KEY); [reflexivity | ].
  apply IH.
Qed.

Lemma no_tombstone_at (es : list HashEntry) (q : Z) :
  Forall entry_ok es -> entry_key (entry_at es q) <> HASH_TOMBSTONE.
Proof.
  intros Hall. unfold entry_at.
  destruct (es !! Z.to_nat q) as [e | ] eqn:He; simpl.
  - rewrite Forall_lookup in Hall. destruct (Hall _ _ He) as (_ & H & _). exact H.
  - discriminate.
Qed.

(** The keys alone decide where probing ends. *)
Lemma scan_keys (f : nat) (es es' : list HashEntry) (mask idx i key : Z) :
  (forall q, entry_key (entry_at es' q) = entry_key (entry_at es q)) ->
  scan f es' mask idx i key = scan f es mask idx i key.
Proof.
  intros Hk. revert i. induction f as [ | f IH]; intros i; [reflexivity | ].
  cbn [scan]. rewrite Hk, IH. reflexivity.
Qed.

(** * Lookup in a power-of-two table *)

Lemma valid_key_not_sentinel (k : Z) : valid_key k -> is_sentinel k = false.
Proof.
  unfold valid_key, is_sentinel, HASH_TOMBSTONE, HASH_EMPTY_KEY, UINT64_MAX.
  intros H. apply orb_false_intro; apply Z.eqb_neq; lia.
Qed.

Lemma not_sentinel_neq (k : Z) :
  is_sentinel k = false -> k <> HASH_EMPTY_KEY /\ k <> HASH_TOMBSTONE.
Proof.
  unfold is_sentinel. intros H. apply orb_false_elim in H.
  destruct H as [H1 H2]. split; apply Z.eqb_neq; assumption.
Qed.

Lemma live_entry_valid_key (e : HashEntry) :
  entry_ok e -> is_live e = true -> valid_key (entry_key e).
Proof.
  unfold entry_ok, is_live, in_u64, valid_key, HASH_TOMBSTONE, HASH_EMPTY_KEY, UINT64_MAX.
  intros ([H0 H1] & Hnt & _) Hl. apply andb_true_iff in Hl. destruct Hl as [Hl _].
  apply negb_true_iff, Z.eqb_neq in Hl. lia.
Qed.

Lemma valid_key_live (k n w : Z) : valid_key k -> is_live (mkEntry k n w) = true.
Proof.
  intros H. apply valid_key_not_sentinel in H. apply not_sentinel_neq in H.
  destruct H as [H1 H2]. unfold is_live. simpl.
  apply andb_true_iff; split; apply negb_true_iff, Z.eqb_neq; assumption.
Qed.

Lemma empty_not_live (e : HashEntry) :
  entry_key e = HASH_EMPTY_KEY -> is_live e = false.
Proof. intros H. unfold is_live. rewrite H, Z.eqb_refl. reflexivity. Qed.

Section Geometry.
Variables (m : HashMap) (j : Z).
Hypothesis Hj : 4 <= j <= 59.
Hypothesis Hcap : map_capacity m = 2 ^ j.

Let c := 2 ^ j.
Let keyat (q : Z) : Z := entry_key (entry_at (map_entries m) q).

Lemma cap_pos : 16 <= c <= 2 ^ 59.
Proof. apply pow2_bounds. exact Hj. Qed.

Lemma home_range (k : Z) : 0 <= home c k < c.
Proof. unfold home. apply Z.mod_pos_bound. pose proof cap_pos. lia. Qed.

(** [scan] over the whole table, with the slots written as residues. *)
Lemma scan_table (k p : Z) (b : bool) :
  scan (Z.to_nat (map_capacity m)) (map_entries m)
       (wrap64 (map_capacity m - 1))
       (Z.land (hash_u64 k) (wrap64 (map_capacity m - 1))) 0 k = Some (p, b)
  <-> exists t, 0 <= t < c /\ p = (home c k + t) mod c
      /\ (if b then keyat p = k else keyat p = HASH_EMPTY_KEY /\ keyat p <> k)
      /\ forall s, 0 <= s < t ->
           keyat ((home c k + s) mod c) <> k
           /\ keyat ((home c k + s) mod c) <> HASH_EMPTY_KEY.
Proof.
  pose proof cap_pos as Hc. pose proof (home_range k) as Hh.
  rewrite scan_Some, Hcap. fold c.
  assert (Hidx : Z.land (hash_u64 k) (wrap64 (c - 1)) = home c k).
  { unfold c, home. apply mask_land. lia. }
  rewrite Hidx.
  assert (Hpr : forall x, 0 <= x <= c ->
            Z.land (wrap64 (home c k + (0 + x))) (wrap64 (c - 1))
            = (home c k + x) mod c).
  { intros x Hx. rewrite Z.add_0_l. apply probe_slot; unfold c in *; lia. }
  split; intros (t & Ht & Hp & Hb & Hbefore); exists t.
  - rewrite Hpr in Hp by lia.
    repeat split; try lia; try assumption.
    all: rewrite <- Hpr by lia; apply Hbefore; lia.
  - rewrite Hpr by lia.
    repeat split; try lia; try assumption.
    all: rewrite Hpr by lia; apply Hbefore; lia.
Qed.

Lemma get_Some_iff (k p : Z) :
  is_sentinel k = false ->
  hashmap_get m k = Some p
  <-> exists t, 0 <= t < c /\ p = (home c k + t) mod c /\ keyat p = k
      /\ forall s, 0 <= s < t ->
           keyat ((home c k + s) mod c) <> k
           /\ keyat ((home c k + s) mod c) <> HASH_EMPTY_KEY.
Proof.
  intros Hs. unfold hashmap_get. rewrite Hs, get_probe_scan.
  rewrite <- (scan_table k p true).
  destruct (scan _ _ _ _ _ _) as [[p' [ | ]] | ]; split; congruence.
Qed.

Lemma get_Some_key (k p : Z) :
  hashmap_get m k = Some p -> 0 <= p < c /\ keyat p = k.
Proof.
  intros H. destruct (is_sentinel k) eqn:Hs.
  - unfold hashmap_get in H. rewrite Hs in H. discriminate.
  - apply get_Some_iff in H; [ | exact Hs].
    destruct H as (t & Ht & -> & Hk & _). split; [ | exact Hk].
    apply Z.mod_pos_bound. pose proof cap_pos. lia.
Qed.
End Geometry.

(** * Writing one slot *)

(** Lookup reads the capacity and the keys only. *)
Lemma get_same_keys (m m' : HashMap) (k : Z) :
  map_capacity m' = map_capacity m ->
  (forall q, entry_key (entry_at (map_entries m') q)
             = entry_key (entry_at (map_entries m) q)) ->
  hashmap_get m' k = hashmap_get m k.
Proof.
  intros Hc Hk. unfold hashmap_get. rewrite Hc, !get_probe_scan.
  rewrite (scan_keys _ (map_entries m) (map_entries m')); [reflexivity | exact Hk].
Qed.

Section FillEmptySlot.
Variables (m m' : HashMap) (j q k : Z) (e' : HashEntry).
Hypothesis Hj : 4 <= j <= 59.
Hypothesis Hcap : map_capacity m = 2 ^ j.
Hypothesis Hcap' : map_capacity m' = 2 ^ j.
Hypothesis Hlen : Z.of_nat (length (map_entries m)) = 2 ^ j.
Hypothesis Hq : 0 <= q < 2 ^ j.
Hypothesis Hempty : entry_key (entry_at (map_entries m) q) = HASH_EMPTY_KEY.
Hypothesis Hes' : map_entries m' = <[Z.to_nat q := e']> (map_entries m).
Hypothesis Hkey : entry_key e' = k.

Lemma filled_slot : entry_at (map_entries m') q = e'.
Proof. rewrite Hes'. apply entry_at_insert_eq. lia. Qed.

Lemma other_slots (p : Z) :
  0 <= p -> p <> q -> entry_at (map_entries m') p = entry_at (map_entries m) p.
Proof. intros Hp Hne. rewrite Hes'. apply entry_at_insert_ne; lia. Qed.

Lemma residue_nonneg (x : Z) : 0 <= x mod 2 ^ j < 2 ^ j.
Proof. apply Z.mod_pos_bound. pose proof (pow2_bounds j Hj). lia. Qed.

(** A key present before is found at the same slot afterwards. *)
Lemma fill_keeps (k' p : Z) :
  is_sentinel k' = false ->
  hashmap_get m k' = Some p -> hashmap_get m' k' = Some p.
Proof.
  intros Hs Hget.
  apply (get_Some_iff m j Hj Hcap k' p Hs) in Hget.
  apply (get_Some_iff m' j Hj Hcap' k' p Hs).
  destruct Hget as (t & Ht & Hp & Hk & Hbefore).
  destruct (not_sentinel_neq k' Hs) as [Hne _].
  assert (Hpq : p <> q) by (intros ->; congruence).
  exists t. split; [exact Ht | ]. split; [exact Hp | ]. split.
  - rewrite other_slots; [exact Hk | | exact Hpq].
    rewrite Hp. apply residue_nonneg.
  - intros s Hs'. destruct (Hbefore s Hs') as [H1 H2].
    rewrite other_slots; [split; assumption | apply residue_nonneg | ].
    intros Heq. rewrite Heq in H2. contradiction.
Qed.

(** The key written is found where the scan for it stopped. *)
Lemma fill_finds :
  is_sentinel k = false ->
  scan (Z.to_nat (map_capacity m)) (map_entries m)
       (wrap64 (map_capacity m - 1))
       (Z.land (hash_u64 k) (wrap64 (map_capacity m - 1))) 0 k = Some (q, false) ->
  hashmap_get m' k = Some q.
Proof.
  intros Hs Hscan.
  apply (scan_table m j Hj Hcap k q false) in Hscan.
  apply (get_Some_iff m' j Hj Hcap' k q Hs).
  destruct Hscan as (t & Ht & Hp & _ & Hbefore).
  exists t. split; [exact Ht | ]. split; [exact Hp | ]. split.
  - rewrite filled_slot. exact Hkey.
  - intros s Hs'. destruct (Hbefore s Hs') as [H1 H2].
    rewrite other_slots; [split; assumption | apply residue_nonneg | ].
    intros Heq. rewrite Heq in H2. contradiction.
Qed.

(** A key other than the one written is found afterwards only where it
    already was. *)
Lemma fill_adds_nothing (k' p : Z) :
  k' <> k -> hashmap_get m' k' = Some p ->
  p <> q /\ 0 <= p < 2 ^ j /\ entry_key (entry_at (map_entries m) p) = k'.
Proof.
  intros Hne Hget.
  destruct (get_Some_key m' j Hj Hcap' k' p Hget) as [Hp Hk].
  assert (Hpq : p <> q).
  { intros ->. rewrite filled_slot in Hk. congruence. }
  rewrite other_slots in Hk by lia. auto.
Qed.
End FillEmptySlot.

(** * [hashmap_put] below the load limit *)

Lemma live_key_at (m : HashMap) (p : Z) :
  map_wf m -> 0 <= p < map_capacity m ->
  is_sentinel (entry_key (entry_at (map_entries m) p)) = false ->
  is_live (entry_at (map_entries m) p) = true.
Proof.
  intros Hwf Hp Hs. apply not_sentinel_neq in Hs. destruct Hs as [H1 H2].
  unfold is_live. apply andb_true_iff; split; apply negb_true_iff, Z.eqb_neq; assumption.
Qed.

Lemma get_sentinel (m : HashMap) (k : Z) :
  is_sentinel k = true -> hashmap_get m k = None.
Proof. intros H. unfold hashmap_get. rewrite H. reflexivity. Qed.

Lemma wf_size_lt_cap (m : HashMap) :
  map_wf m -> 0 <= map_size m /\ map_size m < map_capacity m.
Proof.
  intros Hwf. destruct (wf_cap m Hwf) as (j & Hj & Hc).
  pose proof (pow2_bounds j Hj). pose proof (wf_load m Hwf).
  pose proof (live_count_range (map_entries m)). rewrite <- (wf_size m Hwf) in *.
  lia.
Qed.

(** Writing the absent key [k] into the empty slot where its scan stopped
    keeps the invariant. *)
Lemma fill_wf (m : HashMap) (k q : Z) :
  map_wf m -> valid_key k -> map_size m * 10 <= map_capacity m * 7 ->
  scan (Z.to_nat (map_capacity m)) (map_entries m)
       (wrap64 (map_capacity m - 1))
       (Z.land (hash_u64 k) (wrap64 (map_capacity m - 1))) 0 k = Some (q, false) ->
  map_wf (mkMap (<[Z.to_nat q := mkEntry k 0 0]> (map_entries m))
                (map_capacity m) (map_size m + 1) (map_tombstones m)).
Proof.
  intros Hwf Hk Hload Hscan.
  destruct (wf_cap m Hwf) as (j & Hj & Hc).
  pose proof (pow2_bounds j Hj) as Hpow.
  pose proof (wf_len m Hwf) as Hlen.
  pose proof (valid_key_not_sentinel k Hk) as Hks.
  pose proof Hscan as Hscan'.
  apply (scan_table m j Hj Hc k q false) in Hscan'.
  destruct Hscan' as (t & Ht & Hq & [Hempty Hnk] & _).
  assert (Hq' : 0 <= q < 2 ^ j).
  { rewrite Hq. apply Z.mod_pos_bound. lia. }
  set (m' := mkMap _ _ _ _).
  assert (Hfinds : hashmap_get m' k = Some q).
  { apply (fill_finds m m' j q k (mkEntry k 0 0)); auto; try congruence. }
  constructor; simpl.
  - exists j. split; [exact Hj | exact Hc].
  - rewrite length_insert. exact Hlen.
  - apply (wf_tomb m Hwf).
  - apply Forall_insert; [apply (wf_entries m Hwf) | ].
    unfold entry_ok, in_u64, valid_key, HASH_TOMBSTONE, UINT64_MAX in *. simpl. lia.
  - rewrite (live_count_insert _ _ (entry_at (map_entries m) q)).
    + rewrite (empty_not_live _ Hempty), (valid_key_live k 0 0 Hk).
      rewrite (wf_size m Hwf). lia.
    + apply entry_at_in_range. lia.
  - lia.
  - intros p Hp Hlive.
    destruct (Z.eq_dec p q) as [-> | Hne].
    + rewrite entry_at_insert_eq by lia. simpl. exact Hfinds.
    + rewrite entry_at_insert_ne in * by lia.
      apply (fill_keeps m m' j q (mkEntry k 0 0)); auto; try congruence.
      * apply valid_key_not_sentinel, live_entry_valid_key; [ | exact Hlive].
        apply entry_ok_at; [apply (wf_entries m Hwf) | lia].
      * apply (wf_chain m Hwf); [lia | exact Hlive].
Qed.

Lemma put_here_spec (m : HashMap) (k : Z) :
  map_wf m -> valid_key k -> map_size m * 10 <= map_capacity m * 7 ->
  exists m' p,
    put_here m k = (m', Some p)
    /\ map_wf m'
    /\ map_capacity m' = map_capacity m
    /\ 0 <= p < map_capacity m
    /\ hashmap_get m' k = Some p
    /\ (forall k', k' <> k -> hashmap_get m' k' = hashmap_get m k')
    /\ (forall q, 0 <= q -> q <> p ->
          entry_at (map_entries m') q = entry_at (map_entries m) q)
    /\ match hashmap_get m k with
       | Some p0 => m' = m /\ p = p0
       | None => entry_at (map_entries m') p = mkEntry k 0 0
                 /\ map_size m' = map_size m + 1
       end.
Proof.
  intros Hwf Hk Hload.
  destruct (wf_cap m Hwf) as (j & Hj & Hc).
  pose proof (pow2_bounds j Hj) as Hpow.
  pose proof (wf_len m Hwf) as Hlen.
  pose proof (valid_key_not_sentinel k Hk) as Hks.
  unfold put_here. rewrite put_probe_scan
    by (intros q; apply no_tombstone_at, (wf_entries m Hwf)).
  assert (Hget : hashmap_get m k
                 = match scan (Z.to_nat (map_capacity m)) (map_entries m)
                           (wrap64 (map_capacity m - 1))
                           (Z.land (hash_u64 k) (wrap64 (map_capacity m - 1))) 0 k with
                   | Some (p, true) => Some p
                   | _ => None
                   end).
  { unfold hashmap_get. rewrite Hks. apply get_probe_scan. }
  destruct (scan _ _ _ _ _ _) as [[q [ | ]] | ] eqn:Hscan.
  - (* the key is there *)
    exists m, q. rewrite Hget.
    destruct (get_Some_key m j Hj Hc k q Hget) as [Hq _].
    split; [reflexivity | ]. split; [exact Hwf | ]. split; [reflexivity | ].
    split; [lia | ]. split; [reflexivity | ]. split; [reflexivity | ].
    split; [reflexivity | ]. split; reflexivity.
  - (* the key is absent: it goes into the empty slot q *)
    pose proof (fill_wf m k q Hwf Hk Hload Hscan) as Hwf'.
    pose proof Hscan as Hscan'.
    apply (scan_table m j Hj Hc k q false) in Hscan'.
    destruct Hscan' as (t & Ht & Hq & [Hempty Hnk] & _).
    assert (Hq' : 0 <= q < 2 ^ j).
    { rewrite Hq. apply Z.mod_pos_bound. lia. }
    destruct (wf_size_lt_cap m Hwf) as [Hs0 Hs1].
    rewrite wrap64_small by lia.
    set (m' := mkMap _ _ _ _) in *.
    assert (Hfinds : hashmap_get m' k = Some q).
    { apply (fill_finds m m' j q k (mkEntry k 0 0)); auto; try congruence. }
    exists m', q. rewrite Hget.
    split; [reflexivity | ]. split; [exact Hwf' | ]. split; [reflexivity | ].
    split; [lia | ]. split; [exact Hfinds | ]. split; [ | split ].
    + intros k' Hne.
      destruct (is_sentinel k') eqn:Hs'.
      { rewrite !get_sentinel by exact Hs'. reflexivity. }
      destruct (hashmap_get m k') as [p | ] eqn:Hold.
      * apply (fill_keeps m m' j q (mkEntry k 0 0)); auto; try congruence.
      * destruct (hashmap_get m' k') as [p | ] eqn:Hnew; [ | reflexivity].
        exfalso.
        assert (Hlen2 : Z.of_nat (length (map_entries m)) = 2 ^ j) by congruence.
        destruct (fill_adds_nothing m m' j q k (mkEntry k 0 0) Hj
                    (Hc : map_capacity m' = 2 ^ j) Hlen2 Hq' eq_refl eq_refl
                    k' p Hne Hnew)
          as (Hpq & Hp & Hkey).
        assert (Hlive : is_live (entry_at (map_entries m) p) = true).
        { apply live_key_at; [exact Hwf | lia | rewrite Hkey; exact Hs']. }
        pose proof (wf_chain m Hwf p ltac:(lia) Hlive) as Hchain.
        rewrite Hkey in Hchain. congruence.
    + intros p Hp Hne. simpl. apply entry_at_insert_ne; lia.
    + simpl. rewrite entry_at_insert_eq by lia. split; reflexivity.
  - (* the scan cannot run through the whole table: a slot is empty *)
    exfalso.
    destruct (wf_size_lt_cap m Hwf) as [Hs0 Hs1].
    destruct (empty_slot_exists (map_entries m)) as (q & Hq & Hempty).
    { apply (wf_entries m Hwf). }
    { rewrite <- (wf_size m Hwf). lia. }
    destruct (probe_reaches (2 ^ j) (home (2 ^ j) k) q) as (t & Ht & Hreach);
      [lia | apply home_range; exact Hj | lia | ].
    apply (scan_stops (map_entries m) (wrap64 (map_capacity m - 1))
             (Z.land (hash_u64 k) (wrap64 (map_capacity m - 1))) k
             (Z.to_nat (map_capacity m)) 0 t) in Hscan; [exact Hscan | lia | ].
    rewrite Hc. rewrite (mask_land j (hash_u64 k)) by lia. fold (home (2 ^ j) k).
    rewrite Z.add_0_l, probe_slot; try lia.
    + rewrite Hreach. exact Hempty.
    + apply home_range. exact Hj.
Qed.

(** * Writing the counts of a slot *)

Lemma set_counts_keys (es : list HashEntry) (p n w q : Z) :
  entry_key (entry_at (set_counts es p n w) q) = entry_key (entry_at es q).
Proof.
  unfold set_counts, entry_at.
  destruct (Nat.eq_dec (Z.to_nat q) (Z.to_nat p)) as [Heq | Hne].
  - rewrite Heq. destruct (lookup_lt_is_Some (<[Z.to_nat p := mkEntry
        (entry_key (default empty_entry (es !! Z.to_nat p))) n w]> es) (Z.to_nat p))
      as [_ Hlt].
    destruct (es !! Z.to_nat p) as [e | ] eqn:He.
    + rewrite list_lookup_insert_eq; [reflexivity | ].
      apply lookup_lt_Some in He. exact He.
    + rewrite list_insert_ge; [rewrite He; reflexivity | ].
      apply lookup_ge_None. exact He.
  - rewrite list_lookup_insert_ne by congruence. reflexivity.
Qed.

Lemma set_counts_at (es : list HashEntry) (p n w : Z) :
  0 <= p < Z.of_nat (length es) ->
  entry_at (set_counts es p n w) p = mkEntry (entry_key (entry_at es p)) n w.
Proof. intros Hp. unfold set_counts. apply entry_at_insert_eq. exact Hp. Qed.

Lemma set_counts_other (es : list HashEntry) (p n w q : Z) :
  0 <= p -> 0 <= q -> q <> p ->
  entry_at (set_counts es p n w) q = entry_at es q.
Proof. intros Hp Hq Hne. unfold set_counts. apply entry_at_insert_ne; lia. Qed.

Lemma is_live_key (e e' : HashEntry) :
  entry_key e' = entry_key e -> is_live e' = is_live e.
Proof. intros H. unfold is_live. rewrite H. reflexivity. Qed.

Lemma with_counts_get (m : HashMap) (p n w k : Z) :
  hashmap_get (with_counts m p n w) k = hashmap_get m k.
Proof.
  apply get_same_keys; [reflexivity | ]. intros q. apply set_counts_keys.
Qed.

Lemma with_counts_wf (m : HashMap) (p n w : Z) :
  map_wf m -> 0 <= p < map_capacity m -> in_u64 n -> in_u64 w ->
  map_wf (with_counts m p n w).
Proof.
  intros Hwf Hp Hn Hw.
  pose proof (wf_len m Hwf) as Hlen.
  constructor; simpl.
  - apply (wf_cap m Hwf).
  - unfold set_counts. rewrite length_insert. exact Hlen.
  - apply (wf_tomb m Hwf).
  - unfold set_counts. apply Forall_insert; [apply (wf_entries m Hwf) | ].
    pose proof (entry_ok_at (map_entries m) p (wf_entries m Hwf) ltac:(lia)) as Hok.
    unfold entry_ok in *. simpl. tauto.
  - unfold set_counts.
    rewrite (live_count_insert _ _ (entry_at (map_entries m) p))
      by (apply entry_at_in_range; lia).
    rewrite (is_live_key (entry_at (map_entries m) p) (mkEntry _ n w)) by reflexivity.
    rewrite (wf_size m Hwf). lia.
  - apply (wf_load m Hwf).
  - intros q Hq Hlive. rewrite set_counts_keys.
    rewrite (is_live_key (entry_at (map_entries m) q)) in Hlive
      by apply set_counts_keys.
    rewrite <- (wf_chain m Hwf q Hq Hlive).
    apply (with_counts_get m p n w).
Qed.

Lemma with_counts_lookup (m : HashMap) (p n w k : Z) :
  map_wf m -> 0 <= p < map_capacity m ->
  lookup_counts (with_counts m p n w) k
  = if decide (hashmap_get m k = Some p) then Some (n, w) else lookup_counts m k.
Proof.
  intros Hwf Hp. unfold lookup_counts. rewrite with_counts_get.
  pose proof (wf_len m Hwf) as Hlen.
  destruct (wf_cap m Hwf) as (j & Hj & Hc).
  destruct (hashmap_get m k) as [q | ] eqn:Hget.
  - destruct (get_Some_key m j Hj Hc k q Hget) as [Hq _].
    destruct (decide (Some q = Some p)) as [[= ->] | Hne].
    + simpl. rewrite set_counts_at by lia. reflexivity.
    + simpl. rewrite set_counts_other; [reflexivity | lia | lia | congruence].
  - destruct (decide (None = Some p)); [discriminate | reflexivity].
Qed.

(** * Growing the table *)

Lemma load_test_exact (m : HashMap) :
  map_wf m ->
  (wrap64 ((map_size m + map_tombstones m) * 10) >? wrap64 (map_capacity m * 7))
  = (map_size m * 10 >? map_capacity m * 7).
Proof.
  intros Hwf. destruct (wf_cap m Hwf) as (j & Hj & Hc).
  pose proof (pow2_bounds j Hj). destruct (wf_size_lt_cap m Hwf).
  rewrite (wf_tomb m Hwf), Z.add_0_r.
  rewrite !wrap64_small by lia. reflexivity.
Qed.

(** Below the load limit [hashmap_put] goes straight to its probe loop,
    whatever depth is left. *)
Lemma put_depth_below_load (d : nat) (m : HashMap) (k : Z) :
  map_wf m -> valid_key k -> map_size m * 10 <= map_capacity m * 7 ->
  hashmap_put_depth d m k = Some (put_here m k).
Proof.
  intros Hwf Hk Hload.
  assert (Hs : is_sentinel k = false) by (apply valid_key_not_sentinel; exact Hk).
  assert (Ht : (wrap64 ((map_size m + map_tombstones m) * 10)
                >? wrap64 (map_capacity m * 7)) = false).
  { rewrite load_test_exact by exact Hwf. rewrite Z.gtb_ltb. apply Z.ltb_ge. lia. }
  destruct d; cbn [hashmap_put_depth]; rewrite Hs, Ht; reflexivity.
Qed.

Lemma lookup_counts_Some (m : HashMap) (k : Z) (c : Z * Z) :
  lookup_counts m k = Some c -> exists p, hashmap_get m k = Some p.
Proof.
  unfold lookup_counts. destruct (hashmap_get m k) as [p | ]; [eauto | discriminate].
Qed.

Lemma lookup_counts_None (m : HashMap) (k : Z) :
  lookup_counts m k = None <-> hashmap_get m k = None.
Proof.
  unfold lookup_counts. destruct (hashmap_get m k); split; congruence.
Qed.

Section Reinsert.
Variables (old : HashMap) (put : HashMap -> Z -> option (HashMap * option Z)).
Hypothesis Hold : map_wf old.
Hypothesis Hput : forall m k,
  map_wf m -> valid_key k -> map_size m * 10 <= map_capacity m * 7 ->
  put m k = Some (put_here m k).

Lemma reinsert_spec (fuel : nat) (i : Z) (mi : HashMap) :
  0 <= i -> i + Z.of_nat fuel = map_capacity old ->
  map_wf mi ->
  map_capacity mi = 2 * map_capacity old ->
  map_size mi = live_count (take (Z.to_nat i) (map_entries old)) ->
  (forall k, lookup_counts mi k = lookup_below old i k) ->
  exists m',
    reinsert put fuel (map_entries old) i mi = Some m'
    /\ map_wf m'
    /\ map_capacity m' = 2 * map_capacity old
    /\ map_size m' = map_size old
    /\ forall k, lookup_counts m' k = lookup_counts old k.
Proof.
  destruct (wf_cap old Hold) as (j & Hj & Hc).
  pose proof (pow2_bounds j Hj) as Hpow.
  pose proof (wf_len old Hold) as Hlen.
  revert i mi. induction fuel as [ | fuel IH]; intros i mi Hi Hfuel Hwf Hcap Hsize Hinv.
  - (* all slots done *)
    exists mi. split; [reflexivity | ]. split; [exact Hwf | ]. split; [exact Hcap | ].
    split.
    + rewrite Hsize, (wf_size old Hold), take_ge by lia. reflexivity.
    + intros k. rewrite Hinv. unfold lookup_below.
      destruct (hashmap_get old k) as [p | ] eqn:Hget.
      * destruct (get_Some_key old j Hj Hc k p Hget) as [Hp _].
        destruct (Z.ltb_spec p i); [reflexivity | lia].
      * symmetry. apply lookup_counts_None. exact Hget.
  - cbn [reinsert].
    set (e := entry_at (map_entries old) i).
    assert (Hin : map_entries old !! Z.to_nat i = Some e).
    { apply entry_at_in_range. lia. }
    assert (Hsz : live_count (take (Z.to_nat (i + 1)) (map_entries old))
                  = live_count (take (Z.to_nat i) (map_entries old))
                    + (if is_live e then 1 else 0)).
    { replace (Z.to_nat (i + 1)) with (S (Z.to_nat i)) by lia.
      apply live_count_take_S. exact Hin. }
    change (negb (entry_key e =? HASH_EMPTY_KEY) && negb (entry_key e =? HASH_TOMBSTONE))
      with (is_live e).
    destruct (is_live e) eqn:Hlive.
    + (* a live slot: put its key, then copy its counts *)
      assert (Hek : valid_key (entry_key e)).
      { apply live_entry_valid_key; [ | exact Hlive].
        apply entry_ok_at; [apply (wf_entries old Hold) | lia]. }
      assert (Hchain : hashmap_get old (entry_key e) = Some i).
      { apply (wf_chain old Hold); [lia | exact Hlive]. }
      assert (Hload : map_size mi * 10 <= map_capacity mi * 7).
      { rewrite Hsize, Hcap.
        pose proof (live_count_take_le (map_entries old) (Z.to_nat i)).
        pose proof (wf_load old Hold). rewrite (wf_size old Hold) in *. lia. }
      rewrite (Hput mi (entry_key e) Hwf Hek Hload).
      destruct (put_here_spec mi (entry_key e) Hwf Hek Hload)
        as (m1 & p & -> & Hwf1 & Hcap1 & Hp & Hget1 & Hothers & Hslots & Hnew).
      assert (Habsent : hashmap_get mi (entry_key e) = None).
      { apply lookup_counts_None. rewrite Hinv. unfold lookup_below.
        rewrite Hchain. destruct (Z.ltb_spec i i); [lia | reflexivity]. }
      rewrite Habsent in Hnew. destruct Hnew as [Hentry Hsize1].
      assert (Hok : entry_ok e).
      { apply entry_ok_at; [apply (wf_entries old Hold) | lia]. }
      assert (Hwf2 : map_wf (with_counts m1 p (entry_n e) (entry_w e))).
      { apply with_counts_wf; [exact Hwf1 | lia | | ]; unfold entry_ok in Hok; tauto. }
      apply (IH (i + 1) (with_counts m1 p (entry_n e) (entry_w e)));
        [lia | lia | exact Hwf2 | simpl; lia | simpl; lia | ].
      intros k. rewrite with_counts_lookup by (exact Hwf1 || lia).
      unfold lookup_below.
      destruct (Z.eq_dec k (entry_key e)) as [-> | Hne].
      * rewrite Hget1, Hchain.
        destruct (decide (Some p = Some p)); [ | congruence].
        destruct (Z.ltb_spec i (i + 1)); [ | lia].
        unfold lookup_counts. rewrite Hchain. reflexivity.
      * assert (Hnp : hashmap_get m1 k <> Some p).
        { intros Hk.
          destruct (wf_cap m1 Hwf1) as (j1 & Hj1 & Hc1).
          destruct (get_Some_key m1 j1 Hj1 Hc1 k p Hk) as [_ Hkey].
          rewrite Hentry in Hkey. simpl in Hkey. congruence. }
        destruct (decide (hashmap_get m1 k = Some p)); [contradiction | ].
        assert (Hsame : lookup_counts m1 k = lookup_counts mi k).
        { unfold lookup_counts. rewrite (Hothers k Hne).
          destruct (hashmap_get mi k) as [q | ] eqn:Hq; [ | reflexivity].
          rewrite (Hothers k Hne) in Hnp.
          destruct (wf_cap mi Hwf) as (ji & Hji & Hci).
          destruct (get_Some_key mi ji Hji Hci k q Hq) as [Hqr _].
          rewrite Hslots; [reflexivity | lia | congruence]. }
        rewrite Hsame, Hinv. unfold lookup_below.
        destruct (hashmap_get old k) as [q | ] eqn:Hq; [ | reflexivity].
        assert (q <> i).
        { intros ->. destruct (get_Some_key old j Hj Hc k i Hq) as [_ Hkey].
          fold e in Hkey. congruence. }
        destruct (Z.ltb_spec q i), (Z.ltb_spec q (i + 1)); try reflexivity; lia.
    + (* an empty slot: nothing to copy *)
      apply (IH (i + 1) mi); [lia | lia | exact Hwf | exact Hcap | lia | ].
      intros k. rewrite Hinv. unfold lookup_below.
      destruct (hashmap_get old k) as [q | ] eqn:Hq; [ | reflexivity].
      assert (q <> i).
      { intros ->. destruct (get_Some_key old j Hj Hc k i Hq) as [Hr Hkey].
        fold e in Hkey.
        assert (is_sentinel k = false).
        { destruct (is_sentinel k) eqn:Hs; [ | reflexivity].
          rewrite get_sentinel in Hq by exact Hs. discriminate. }
        assert (is_live e = true); [ | congruence].
        apply live_key_at; [exact Hold | lia | ]. fold e. rewrite Hkey. assumption. }
      destruct (Z.ltb_spec q i), (Z.ltb_spec q (i + 1)); try reflexivity; lia.
Qed.
End Reinsert.

Lemma empty_entry_ok : entry_ok empty_entry.
Proof.
  unfold entry_ok, empty_entry, in_u64, HASH_EMPTY_KEY, HASH_TOMBSTONE, UINT64_MAX.
  simpl. lia.
Qed.

Lemma fresh_map_wf (j : Z) :
  4 <= j <= 59 ->
  map_wf (mkMap (replicate (Z.to_nat (2 ^ j)) empty_entry) (2 ^ j) 0 0).
Proof.
  intros Hj. pose proof (pow2_bounds j Hj) as Hpow.
  constructor; simpl.
  - exists j. split; [exact Hj | reflexivity].
  - rewrite length_replicate. lia.
  - reflexivity.
  - apply Forall_replicate. exact empty_entry_ok.
  - rewrite live_count_replicate. reflexivity.
  - lia.
  - intros p _ Hlive. rewrite entry_at_replicate in Hlive. discriminate.
Qed.

Lemma fresh_map_lookup (c k : Z) :
  lookup_counts (mkMap (replicate (Z.to_nat c) empty_entry) c 0 0) k = None.
Proof.
  apply lookup_counts_None. unfold hashmap_get.
  destruct (is_sentinel k) eqn:Hs; [reflexivity | ].
  rewrite get_probe_scan.
  destruct (scan _ _ _ _ _ _) as [[p [ | ]] | ] eqn:Hscan; try reflexivity.
  apply scan_Some in Hscan. destruct Hscan as (t & _ & _ & Hkey & _).
  simpl in Hkey. rewrite entry_at_replicate in Hkey. simpl in Hkey.
  apply not_sentinel_neq in Hs. destruct Hs. congruence.
Qed.

Lemma put_here_post (m : HashMap) (k : Z) :
  map_wf m -> valid_key k -> map_size m * 10 <= map_capacity m * 7 ->
  exists m' p, put_here m k = (m', Some p) /\ put_post m k m' p
               /\ map_capacity m' = map_capacity m.
Proof.
  intros Hwf Hk Hload.
  destruct (put_here_spec m k Hwf Hk Hload)
    as (m' & p & Hput & Hwf' & Hcap & Hp & Hget & Hothers & Hslots & Hnew).
  exists m', p. split; [exact Hput | ]. split; [ | exact Hcap].
  unfold put_post.
  split; [exact Hwf' | ]. split; [lia | ]. split; [exact Hget | ].
  split; [ | split; [ | split ] ].
  - unfold lookup_counts. rewrite Hget.
    destruct (hashmap_get m k) as [p0 | ] eqn:Hold.
    + destruct Hnew as [-> ->]. reflexivity.
    + destruct Hnew as [-> _]. reflexivity.
  - intros k' Hne. unfold lookup_counts. rewrite (Hothers k' Hne).
    destruct (hashmap_get m k') as [q | ] eqn:Hq; [ | reflexivity].
    destruct (wf_cap m Hwf) as (j & Hj & Hc).
    destruct (get_Some_key m j Hj Hc k' q Hq) as [Hqr Hkey].
    rewrite Hslots; [reflexivity | lia | ].
    intros ->. rewrite <- (Hothers k' Hne) in Hq.
    destruct (wf_cap m' Hwf') as (j' & Hj' & Hc').
    destruct (get_Some_key m' j' Hj' Hc' k' p Hq) as [_ Hk1].
    destruct (get_Some_key m' j' Hj' Hc' k p Hget) as [_ Hk2].
    congruence.
  - left. exact Hcap.
  - unfold lookup_counts. destruct (hashmap_get m k) as [p0 | ].
    + destruct Hnew as [-> _]. lia.
    + destruct Hnew as [_ ->]. reflexivity.
Qed.

(** [hashmap_resize], when the larger array can be allocated. *)
Lemma resize_spec (d : nat) (m : HashMap) :
  map_wf m -> calloc_ok (wrap64 (map_capacity m * 2)) sizeof_HashEntry = true ->
  exists m',
    hashmap_resize_with (hashmap_put_depth d) m = Some (m', 0)
    /\ map_wf m'
    /\ map_capacity m' = 2 * map_capacity m
    /\ map_size m' = map_size m
    /\ forall k, lookup_counts m' k = lookup_counts m k.
Proof.
  intros Hwf Hcalloc.
  destruct (wf_cap m Hwf) as (j & Hj & Hc).
  pose proof (pow2_bounds j Hj) as Hpow.
  assert (Hnew : wrap64 (map_capacity m * 2) = 2 ^ (j + 1)).
  { rewrite wrap64_small by lia. rewrite Hc, Z.pow_add_r by lia. lia. }
  assert (Hj1 : j + 1 <= 59).
  { destruct (Z.le_gt_cases (j + 1) 59) as [H | H]; [exact H | exfalso].
    unfold calloc_ok, sizeof_HashEntry in Hcalloc. rewrite Hnew in Hcalloc.
    apply Z.ltb_lt in Hcalloc.
    assert (2 ^ 60 <= 2 ^ (j + 1)) by (apply Z.pow_le_mono_r; lia). lia. }
  unfold hashmap_resize_with. rewrite Hcalloc. cbn [negb]. rewrite Hnew.
  destruct (reinsert_spec m (hashmap_put_depth d) Hwf
              (fun m0 k0 => put_depth_below_load d m0 k0)
              (Z.to_nat (map_capacity m)) 0
              (mkMap (replicate (Z.to_nat (2 ^ (j + 1))) empty_entry) (2 ^ (j + 1)) 0 0))
    as (m' & Hre & Hwf' & Hcap' & Hsize' & Hlook).
  - lia.
  - lia.
  - apply fresh_map_wf. lia.
  - simpl. rewrite Hc, Z.pow_add_r by lia. lia.
  - reflexivity.
  - intros k. rewrite fresh_map_lookup. unfold lookup_below.
    destruct (hashmap_get m k) as [p | ] eqn:Hget; [ | reflexivity].
    destruct (get_Some_key m j Hj Hc k p Hget) as [Hp _].
    destruct (Z.ltb_spec p 0); [lia | reflexivity].
  - exists m'. rewrite Hre. auto.
Qed.

Lemma resize_no_memory (put : HashMap -> Z -> option (HashMap * option Z))
    (m : HashMap) :
  calloc_ok (wrap64 (map_capacity m * 2)) sizeof_HashEntry = false ->
  hashmap_resize_with put m = Some (m, -1).
Proof. intros H. unfold hashmap_resize_with. rewrite H. reflexivity. Qed.

(** [hashmap_put] on a valid key: either the table had to grow and the
    allocation failed, leaving the map as it was, or the key is in the map
    afterwards. *)
Lemma put_depth_spec (d : nat) (m : HashMap) (k : Z) :
  map_wf m -> valid_key k ->
  (map_size m * 10 > map_capacity m * 7
   /\ calloc_ok (wrap64 (map_capacity m * 2)) sizeof_HashEntry = false
   /\ hashmap_put_depth (S d) m k = Some (m, None))
  \/ exists m' p, hashmap_put_depth (S d) m k = Some (m', Some p)
                  /\ put_post m k m' p.
Proof.
  intros Hwf Hk.
  assert (Hs : is_sentinel k = false) by (apply valid_key_not_sentinel; exact Hk).
  destruct (Z.le_gt_cases (map_size m * 10) (map_capacity m * 7)) as [Hload | Hload].
  - right. rewrite put_depth_below_load by assumption.
    destruct (put_here_post m k Hwf Hk Hload) as (m' & p & -> & Hpost & _).
    exists m', p. split; [reflexivity | exact Hpost].
  - cbn [hashmap_put_depth]. rewrite Hs, load_test_exact by exact Hwf.
    assert (Ht : (map_size m * 10 >? map_capacity m * 7) = true).
    { rewrite Z.gtb_ltb. apply Z.ltb_lt. lia. }
    rewrite Ht.
    destruct (calloc_ok (wrap64 (map_capacity m * 2)) sizeof_HashEntry) eqn:Hcalloc.
    + right.
      destruct (resize_spec d m Hwf Hcalloc)
        as (m1 & -> & Hwf1 & Hcap1 & Hsize1 & Hlook1).
      cbn [Z.eqb negb].
      destruct (wf_cap m Hwf) as (j & Hj & Hc). pose proof (pow2_bounds j Hj).
      pose proof (wf_load m Hwf).
      assert (Hload1 : map_size m1 * 10 <= map_capacity m1 * 7) by lia.
      destruct (put_here_post m1 k Hwf1 Hk Hload1)
        as (m' & p & Hput & Hpost & Hcap').
      unfold put_here in Hput. rewrite Hput.
      exists m', p. split; [reflexivity | ].
      destruct Hpost as (H1 & H2 & H3 & H4 & H5 & H6 & H7).
      unfold put_post. rewrite <- !Hlook1.
      split; [exact H1 | ]. split; [exact H2 | ]. split; [exact H3 | ].
      split; [exact H4 | ]. split.
      { intros k' Hne. rewrite (H5 k' Hne). apply Hlook1. }
      split; [right; split; lia | ].
      rewrite H7, Hsize1. reflexivity.
    + left. rewrite (resize_no_memory _ m Hcalloc). cbn [Z.eqb negb].
      split; [lia | ]. split; reflexivity.
Qed.

(** * The public operations on well-formed maps *)

Lemma init_capacity_pow2 (fuel : nat) (cap c r : Z) :
  (cap = 0 /\ 0 < c) \/ (exists j, 4 <= j <= 63 /\ cap = 2 ^ j) ->
  init_capacity fuel cap c = Some r ->
  exists j, 4 <= j <= 63 /\ r = 2 ^ j.
Proof.
  revert cap. induction fuel as [ | fuel IH]; intros cap Hcap Hr; [discriminate | ].
  cbn [init_capacity] in Hr.
  destruct (Z.ltb_spec cap c) as [Hlt | Hge].
  - apply (IH (wrap64 (cap * 2))); [ | exact Hr].
    destruct Hcap as [[-> Hc] | (j & Hj & ->)].
    + left. split; [reflexivity | exact Hc].
    + destruct (Z.eq_dec j 63) as [-> | Hne].
      * left. split; [reflexivity | ].
        assert (0 < 2 ^ 63) by lia. lia.
      * right. exists (j + 1). split; [lia | ].
        rewrite Z.pow_add_r by lia.
        assert (2 ^ j <= 2 ^ 62) by (apply Z.pow_le_mono_r; lia).
        assert (0 < 2 ^ j) by (apply Z.pow_pos_nonneg; lia).
        apply wrap64_small. lia.
  - injection Hr as <-. destruct Hcap as [[-> Hc] | Hj]; [lia | exact Hj].
Qed.

Lemma init_wf (c : Z) (m : HashMap) :
  hashmap_init c = Some m -> map_wf m /\ map_size m = 0.
Proof.
  unfold hashmap_init. intros H.
  destruct (init_capacity 65 16 c) as [cap | ] eqn:Hcap; [ | discriminate].
  destruct (calloc_ok cap sizeof_HashEntry) eqn:Hcalloc; [ | discriminate].
  injection H as <-.
  apply init_capacity_pow2 in Hcap.
  - destruct Hcap as (j & Hj & ->).
    assert (j <= 59).
    { destruct (Z.le_gt_cases j 59) as [H | H]; [exact H | exfalso].
      unfold calloc_ok, sizeof_HashEntry in Hcalloc. apply Z.ltb_lt in Hcalloc.
      assert (2 ^ 60 <= 2 ^ j) by (apply Z.pow_le_mono_r; lia). lia. }
    split; [apply fresh_map_wf; lia | reflexivity].
  - right. exists 4. split; [lia | reflexivity].
Qed.

Lemma put_depth_sentinel (d : nat) (m : HashMap) (k : Z) :
  is_sentinel k = true -> hashmap_put_depth d m k = Some (m, None).
Proof. intros H. destruct d; cbn [hashmap_put_depth]; rewrite H; reflexivity. Qed.

Lemma put_sentinel (m : HashMap) (k : Z) :
  is_sentinel k = true -> hashmap_put m k = Some (m, None).
Proof. apply put_depth_sentinel. Qed.

Lemma put_spec (m : HashMap) (k : Z) :
  map_wf m -> valid_key k ->
  (map_size m * 10 > map_capacity m * 7
   /\ calloc_ok (wrap64 (map_capacity m * 2)) sizeof_HashEntry = false
   /\ hashmap_put m k = Some (m, None))
  \/ exists m' p, hashmap_put m k = Some (m', Some p) /\ put_post m k m' p.
Proof. intros Hwf Hk. apply (put_depth_spec 63 m k Hwf Hk). Qed.

(** A 64-bit key is a sentinel or a valid key. *)
Lemma key_cases (k : Z) : in_u64 k -> is_sentinel k = true \/ valid_key k.
Proof.
  unfold in_u64, is_sentinel, valid_key, HASH_EMPTY_KEY, HASH_TOMBSTONE, UINT64_MAX.
  intros H.
  destruct (Z.eqb_spec k (2 ^ 64 - 1)); [left; reflexivity | ].
  destruct (Z.eqb_spec k (2 ^ 64 - 1 - 1)); [left; reflexivity | right; lia].
Qed.


Lemma lookup_counts_range (m : HashMap) (k n w : Z) :
  map_wf m -> lookup_counts m k = Some (n, w) -> in_u64 n /\ in_u64 w.
Proof.
  intros Hwf H. unfold lookup_counts in H.
  destruct (hashmap_get m k) as [p | ] eqn:Hget; [ | discriminate].
  injection H as <- <-.
  destruct (wf_cap m Hwf) as (j & Hj & Hc).
  destruct (get_Some_key m j Hj Hc k p Hget) as [Hp _].
  pose proof (entry_ok_at (map_entries m) p (wf_entries m Hwf)) as Hok.
  rewrite (wf_len m Hwf), Hc in Hok. specialize (Hok Hp).
  unfold entry_ok in Hok. tauto.
Qed.

Lemma bump_range (win : bool) (c : Z * Z) :
  in_u64 (fst (bump win c)) /\ (in_u64 (snd c) -> in_u64 (snd (bump win c))).
Proof.
  unfold bump, in_u64. simpl. split.
  - apply wrap64_range.
  - intros H. destruct win; [apply wrap64_range | exact H].
Qed.

Lemma increment_spec (m : HashMap) (k : Z) (win : bool) :
  map_wf m -> valid_key k ->
  (map_size m * 10 > map_capacity m * 7
   /\ calloc_ok (wrap64 (map_capacity m * 2)) sizeof_HashEntry = false
   /\ hashmap_increment m k win = Some m)
  \/ exists m', hashmap_increment m k win = Some m' /\ increment_post m k win m'.
Proof.
  intros Hwf Hk. unfold hashmap_increment.
  destruct (put_spec m k Hwf Hk) as [(Hload & Hcalloc & ->) | (m1 & p & -> & Hpost)].
  - left. auto.
  - right.
    destruct Hpost as (Hwf1 & Hp & Hget & Hlook & Hothers & Hcap & Hsize).
    set (e := entry_at (map_entries m1) p).
    assert (He : lookup_counts m1 k = Some (entry_n e, entry_w e)).
    { unfold lookup_counts. rewrite Hget. reflexivity. }
    destruct (lookup_counts_range m1 k _ _ Hwf1 He) as [Hn Hw].
    set (c' := bump win (entry_n e, entry_w e)).
    assert (Heq : mkMap (<[Z.to_nat p := mkEntry (entry_key e) (fst c') (snd c')]>
                           (map_entries m1))
                        (map_capacity m1) (map_size m1) (map_tombstones m1)
                  = with_counts m1 p (fst c') (snd c')) by reflexivity.
    exists (with_counts m1 p (fst c') (snd c')). split.
    { rewrite <- Heq. unfold c', bump. simpl. destruct win; reflexivity. }
    destruct (bump_range win (entry_n e, entry_w e)) as [Hr1 Hr2].
    split; [apply with_counts_wf; [exact Hwf1 | exact Hp | exact Hr1 | exact (Hr2 Hw)] | ].
    split.
    { rewrite with_counts_lookup by assumption.
      destruct (decide (hashmap_get m1 k = Some p)); [ | contradiction].
      assert (Hd : default (0, 0) (lookup_counts m k) = (entry_n e, entry_w e))
        by congruence.
      rewrite Hd. fold c'. destruct c'; reflexivity. }
    split.
    { intros k' Hne. rewrite with_counts_lookup by assumption.
      destruct (decide (hashmap_get m1 k' = Some p)) as [Hk' | _].
      - exfalso. destruct (wf_cap m1 Hwf1) as (j1 & Hj1 & Hc1).
        destruct (get_Some_key m1 j1 Hj1 Hc1 k' p Hk') as [_ H1].
        destruct (get_Some_key m1 j1 Hj1 Hc1 k p Hget) as [_ H2]. congruence.
      - apply Hothers. exact Hne. }
    split; [exact Hcap | exact Hsize].
Qed.

Lemma increment_sentinel (m : HashMap) (k : Z) (win : bool) :
  is_sentinel k = true -> hashmap_increment m k win = Some m.
Proof. intros H. unfold hashmap_increment. rewrite put_sentinel by exact H. reflexivity. Qed.

Lemma resize_full_spec (m : HashMap) :
  map_wf m ->
  exists m' rc, hashmap_resize m = Some (m', rc) /\ map_wf m'
    /\ forall k, lookup_counts m' k = lookup_counts m k.
Proof.
  intros Hwf. unfold hashmap_resize.
  destruct (calloc_ok (wrap64 (map_capacity m * 2)) sizeof_HashEntry) eqn:Hcalloc.
  - destruct (resize_spec resize_depth m Hwf Hcalloc) as (m' & -> & Hwf' & _ & _ & Hl).
    exists m', 0. auto.
  - rewrite (resize_no_memory _ m Hcalloc). exists m, (-1). auto.
Qed.

(** Every operation is defined on a well-formed map and keeps it
    well-formed. *)
Lemma run_op_wf (m : HashMap) (op : map_op) :
  map_wf m -> op_typed op -> exists m', run_op m op = Some m' /\ map_wf m'.
Proof.
  intros Hwf Hop. destruct op as [k | k win | ]; simpl in *.
  - destruct (key_cases k Hop) as [Hs | Hk].
    + rewrite put_sentinel by exact Hs. eauto.
    + destruct (put_spec m k Hwf Hk) as [(_ & _ & ->) | (m' & p & -> & Hpost)]; [eauto | ].
      exists m'. split; [reflexivity | apply Hpost].
  - destruct (key_cases k Hop) as [Hs | Hk].
    + rewrite increment_sentinel by exact Hs. eauto.
    + destruct (increment_spec m k win Hwf Hk) as [(_ & _ & ->) | (m' & -> & Hpost)];
        [eauto | ].
      exists m'. split; [reflexivity | apply Hpost].
  - destruct (resize_full_spec m Hwf) as (m' & rc & -> & Hwf' & _). eauto.
Qed.

Lemma run_ops_wf (ops : list map_op) (m : HashMap) :
  map_wf m -> Forall op_typed ops -> exists m', run_ops m ops = Some m' /\ map_wf m'.
Proof.
  revert m. induction ops as [ | op ops IH]; intros m Hwf Hops; simpl.
  - eauto.
  - apply Forall_cons in Hops. destruct Hops as [Hop Hops].
    destruct (run_op_wf m op Hwf Hop) as (m1 & -> & Hwf1).
    apply IH; assumption.
Qed.


(** * Win counts and game counts *)

Lemma counts_below_same (s s' : Z) (m m' : HashMap) :
  s <= s' -> (forall k, lookup_counts m' k = lookup_counts m k) ->
  counts_below s m -> counts_below s' m'.
Proof.
  intros Hs Hl H k n w Hk. rewrite Hl in Hk. specialize (H k n w Hk). lia.
Qed.

Lemma counts_below_put (s : Z) (m m' : HashMap) (k p : Z) :
  0 <= s -> put_post m k m' p -> counts_below s m -> counts_below (s + 1) m'.
Proof.
  intros Hs (_ & _ & _ & Hlook & Hothers & _) H k' n w Hk'.
  destruct (Z.eq_dec k' k) as [-> | Hne].
  - rewrite Hlook in Hk'. destruct (lookup_counts m k) as [[n0 w0] | ] eqn:Hold.
    + simpl in Hk'. injection Hk' as <- <-. specialize (H k n0 w0 Hold). lia.
    + simpl in Hk'. injection Hk' as <- <-. lia.
  - rewrite (Hothers k' Hne) in Hk'. specialize (H k' n w Hk'). lia.
Qed.

Lemma counts_below_increment (s : Z) (m m' : HashMap) (k : Z) (win : bool) :
  0 <= s -> s + 1 < 2 ^ 64 ->
  increment_post m k win m' -> counts_below s m -> counts_below (s + 1) m'.
Proof.
  intros Hs Hs1 (_ & Hlook & Hothers & _) H k' n w Hk'.
  destruct (Z.eq_dec k' k) as [-> | Hne].
  - rewrite Hlook in Hk'.
    assert (Hold : 0 <= snd (default (0, 0) (lookup_counts m k))
                   <= fst (default (0, 0) (lookup_counts m k))
                   /\ fst (default (0, 0) (lookup_counts m k)) <= s).
    { destruct (lookup_counts m k) as [[n0 w0] | ] eqn:Hold; simpl.
      - apply (H k n0 w0 Hold).
      - lia. }
    destruct (default (0, 0) (lookup_counts m k)) as [n0 w0]. simpl in Hold.
    unfold bump in Hk'. simpl in Hk'. injection Hk' as <- <-.
    destruct win; rewrite !wrap64_small by lia; lia.
  - rewrite (Hothers k' Hne) in Hk'. specialize (H k' n w Hk'). lia.
Qed.

Lemma run_op_counts (s : Z) (m m' : HashMap) (op : map_op) :
  0 <= s -> s + 1 < 2 ^ 64 ->
  map_wf m -> op_typed op -> run_op m op = Some m' ->
  counts_below s m -> counts_below (s + 1) m'.
Proof.
  intros Hs Hs1 Hwf Hop Hrun H. destruct op as [k | k win | ]; simpl in *.
  - destruct (key_cases k Hop) as [Hk | Hk].
    + rewrite put_sentinel in Hrun by exact Hk. injection Hrun as <-.
      apply (counts_below_same s (s + 1) m m); auto; lia.
    + destruct (put_spec m k Hwf Hk) as [(_ & _ & Hp) | (m1 & p & Hp & Hpost)];
        rewrite Hp in Hrun; injection Hrun as <-.
      * apply (counts_below_same s (s + 1) m m); auto; lia.
      * apply (counts_below_put s m m1 k p); assumption.
  - destruct (key_cases k Hop) as [Hk | Hk].
    + rewrite increment_sentinel in Hrun by exact Hk. injection Hrun as <-.
      apply (counts_below_same s (s + 1) m m); auto; lia.
    + destruct (increment_spec m k win Hwf Hk) as [(_ & _ & Hp) | (m1 & Hp & Hpost)];
        rewrite Hp in Hrun; injection Hrun as <-.
      * apply (counts_below_same s (s + 1) m m); auto; lia.
      * apply (counts_below_increment s m m1 k win); assumption.
  - destruct (resize_full_spec m Hwf) as (m1 & rc & Hr & _ & Hl).
    rewrite Hr in Hrun. injection Hrun as <-.
    apply (counts_below_same s (s + 1) m m1); auto; lia.
Qed.

Lemma run_ops_counts (ops : list map_op) (s : Z) (m m' : HashMap) :
  0 <= s -> s + Z.of_nat (length ops) < 2 ^ 64 ->
  map_wf m -> Forall op_typed ops -> run_ops m ops = Some m' ->
  counts_below s m -> counts_below (s + Z.of_nat (length ops)) m'.
Proof.
  revert s m. induction ops as [ | op ops IH]; intros s m Hs Hlen Hwf Hops Hrun H.
  - simpl in *. injection Hrun as <-. rewrite Z.add_0_r. exact H.
  - apply Forall_cons in Hops. destruct Hops as [Hop Hops].
    cbn [run_ops] in Hrun. cbn [length] in *.
    destruct (run_op_wf m op Hwf Hop) as (m1 & Hm1 & Hwf1).
    rewrite Hm1 in Hrun.
    replace (s + Z.of_nat (S (length ops))) with (s + 1 + Z.of_nat (length ops)) by lia.
    apply (IH (s + 1) m1); try assumption; try lia.
    apply (run_op_counts s m m1 op); try assumption; lia.
Qed.

Lemma live_entry_lookup (m : HashMap) (p : Z) :
  map_wf m -> 0 <= p < map_capacity m ->
  is_live (entry_at (map_entries m) p) = true ->
  lookup_counts m (entry_key (entry_at (map_entries m) p))
  = Some (entry_n (entry_at (map_entries m) p), entry_w (entry_at (map_entries m) p)).
Proof.
  intros Hwf Hp Hlive. unfold lookup_counts.
  rewrite (wf_chain m Hwf p Hp Hlive). reflexivity.
Qed.

(** C8, as amended: in every map reached from [hashmap_init] by a sequence
    of fewer than 2^64 calls of [hashmap_put], [hashmap_increment] and
    resizes, every live entry has [w <= n]. *)
Theorem win_count_le_count_below_wrap (ops : list map_op) (m : HashMap) (p : Z) :
  reached_by ops m ->
  Z.of_nat (length ops) < 2 ^ 64 ->
  0 <= p < map_capacity m ->
  is_live (entry_at (map_entries m) p) = true ->
  entry_w (entry_at (map_entries m) p) <= entry_n (entry_at (map_entries m) p).
Proof.
  intros (c & m0 & Hinit & Hops & Hrun) Hlen Hp Hlive.
  destruct (init_wf c m0 Hinit) as [Hwf0 _].
  assert (H0 : counts_below 0 m0).
  { intros k n w Hk. exfalso. unfold hashmap_init in Hinit.
    destruct (init_capacity 65 16 c) as [cap | ]; [ | discriminate].
    destruct (calloc_ok cap sizeof_HashEntry); [ | discriminate].
    injection Hinit as <-. rewrite fresh_map_lookup in Hk. discriminate. }
  pose proof (run_ops_counts ops 0 m0 m ltac:(lia) ltac:(lia) Hwf0 Hops Hrun H0) as H.
  destruct (run_ops_wf ops m0 Hwf0 Hops) as (m' & Hrun' & Hwf).
  assert (m' = m) by congruence. subst m'.
  specialize (H _ _ _ (live_entry_lookup m p Hwf Hp Hlive)). lia.
Qed.

Lemma lookup_counts_entry (m : HashMap) (k n w : Z) :
  map_wf m -> lookup_counts m k = Some (n, w) ->
  exists p, 0 <= p < map_capacity m
            /\ entry_at (map_entries m) p = mkEntry k n w.
Proof.
  intros Hwf H. unfold lookup_counts in H.
  destruct (hashmap_get m k) as [p | ] eqn:Hget; [ | discriminate].
  injection H as <- <-.
  destruct (wf_cap m Hwf) as (j & Hj & Hc).
  destruct (get_Some_key m j Hj Hc k p Hget) as [Hp Hk].
  exists p. split; [lia | ]. rewrite <- Hk.
  destruct (entry_at (map_entries m) p); reflexivity.
Qed.

(** Losing increments of a key that is there add to its count modulo
    2^64 and leave the rest alone. *)
Lemma losing_increments (t : nat) (m : HashMap) (k n w : Z) :
  map_wf m -> valid_key k -> map_size m * 10 <= map_capacity m * 7 ->
  lookup_counts m k = Some (n, w) ->
  exists m', run_ops m (replicate t (OpIncrement k false)) = Some m'
             /\ map_wf m'
             /\ lookup_counts m' k = Some ((n + Z.of_nat t) mod 2 ^ 64, w).
Proof.
  intros Hwf Hk. revert m n Hwf.
  induction t as [ | t IH]; intros m n Hwf Hload Hlook.
  - exists m. split; [reflexivity | ]. split; [exact Hwf | ].
    destruct (lookup_counts_range m k n w Hwf Hlook) as [Hn _].
    rewrite Z.add_0_r, Z.mod_small by exact Hn. exact Hlook.
  - cbn [replicate run_ops run_op].
    destruct (increment_spec m k false Hwf Hk)
      as [(Hover & _) | (m1 & -> & Hwf1 & Hl1 & _ & Hcap & Hsize)]; [lia | ].
    rewrite Hlook in Hl1, Hsize. unfold bump in Hl1. simpl in Hl1.
    destruct (IH m1 (wrap64 (n + 1)) Hwf1) as (m' & Hrun & Hwf' & Hl').
    + destruct Hcap as [Hcap | [_ Hcap]]; lia.
    + exact Hl1.
    + exists m'. split; [exact Hrun | ]. split; [exact Hwf' | ].
      rewrite Hl'. unfold wrap64. rewrite Zplus_mod_idemp_l.
      do 2 f_equal. f_equal. lia.
Qed.

(** C8, counterexample: after one winning and 2^64 - 1 losing increments
    of key 1 its count has wrapped to 0 while its one win is still
    recorded, so [w > n] in a reachable map. *)
Lemma win_count_exceeds_count_after_wrap :
  exists m p,
    reached_by wrap_ops m
    /\ 0 <= p < map_capacity m
    /\ is_live (entry_at (map_entries m) p) = true
    /\ entry_n (entry_at (map_entries m) p) = 0
    /\ entry_w (entry_at (map_entries m) p) = 1.
Proof.
  set (m0 := mkMap (replicate (Z.to_nat 16) empty_entry) 16 0 0).
  assert (Hinit : hashmap_init 16 = Some m0) by reflexivity.
  destruct (init_wf 16 m0 Hinit) as [Hwf0 _].
  assert (Hk : valid_key 1).
  { unfold valid_key, HASH_TOMBSTONE, UINT64_MAX. lia. }
  destruct (increment_spec m0 1 true Hwf0 Hk)
    as [(Hover & _) | (m1 & Hrun1 & Hwf1 & Hl1 & _ & Hcap1 & Hsize1)].
  { simpl in Hover. lia. }
  assert (Hnone : lookup_counts m0 1 = None) by apply fresh_map_lookup.
  rewrite Hnone in Hl1, Hsize1. unfold bump in Hl1. simpl in Hl1, Hsize1.
  assert (Hc1 : map_capacity m1 = 16).
  { destruct Hcap1 as [H | [_ H]]; simpl in H; lia. }
  destruct (losing_increments (Z.to_nat (2 ^ 64 - 1)) m1 1 (wrap64 1) (wrap64 1))
    as (m & Hrun & Hwf & Hl); try assumption.
  { rewrite Hc1, Hsize1. lia. }
  rewrite Z2Nat.id in Hl by lia.
  replace ((wrap64 1 + (2 ^ 64 - 1)) mod 2 ^ 64) with 0 in Hl by reflexivity.
  destruct (lookup_counts_entry m 1 0 (wrap64 1) Hwf Hl) as (p & Hp & He).
  exists m, p. split; [ | split; [exact Hp | ] ].
  - exists 16, m0. split; [exact Hinit | ]. split.
    + unfold wrap_ops. apply Forall_cons. split.
      * unfold op_typed, in_u64. lia.
      * apply Forall_replicate. unfold op_typed, in_u64. lia.
    + unfold wrap_ops. cbn [run_ops run_op]. rewrite Hrun1. exact Hrun.
  - rewrite He. split; [apply valid_key_live; exact Hk | ]. split; reflexivity.
Qed.

(** C10: for the two sentinel keys [UINT64_MAX] and [UINT64_MAX - 1],
    [hashmap_put] and [hashmap_get] return [NULL] and [hashmap_increment]
    leaves the map as it was, on every map. *)
Theorem sentinel_keys_never_stored (m : HashMap) (win : bool) :
  (hashmap_put m HASH_EMPTY_KEY = Some (m, None)
   /\ hashmap_get m HASH_EMPTY_KEY = None
   /\ hashmap_increment m HASH_EMPTY_KEY win = Some m)
  /\ (hashmap_put m HASH_TOMBSTONE = Some (m, None)
      /\ hashmap_get m HASH_TOMBSTONE = None
      /\ hashmap_increment m HASH_TOMBSTONE win = Some m).
Proof.
  assert (H1 : is_sentinel HASH_EMPTY_KEY = true) by reflexivity.
  assert (H2 : is_sentinel HASH_TOMBSTONE = true) by reflexivity.
  repeat split;
    first [ apply put_sentinel | apply get_sentinel | apply increment_sentinel ];
    assumption.
Qed.


Lemma to_int64_range (z : Z) : - 2 ^ 63 <= to_int64 z < 2 ^ 63.
Proof.
  unfold to_int64. pose proof (Z.mod_pos_bound (z + 2 ^ 63) (2 ^ 64) ltac:(lia)). lia.
Qed.

Lemma to_int64_congr (z : Z) : exists q, to_int64 z = z + q * 2 ^ 64.
Proof.
  exists (- ((z + 2 ^ 63) / 2 ^ 64)). unfold to_int64.
  rewrite Z.mod_eq by lia. lia.
Qed.

Lemma wrap64_congr (z : Z) : exists q, wrap64 z = z + q * 2 ^ 64.
Proof. exists (- (z / 2 ^ 64)). unfold wrap64. rewrite Z.mod_eq by lia. lia. Qed.

Lemma to_int64_small (z : Z) : - 2 ^ 63 <= z < 2 ^ 63 -> to_int64 z = z.
Proof. intros H. unfold to_int64. rewrite Z.mod_small by lia. lia. Qed.

Lemma wrap64_unique (z r : Z) :
  0 <= r < 2 ^ 64 -> (exists q, z = r + q * 2 ^ 64) -> wrap64 z = r.
Proof.
  intros Hr (q & ->). unfold wrap64. rewrite Z_mod_plus_full. apply Z.mod_small. exact Hr.
Qed.

Lemma bucket_10_congr (x y : Z) : exists q, bucket_10 x y = x - y + q * 2 ^ 64.
Proof.
  unfold bucket_10, sub_int64.
  destruct (to_int64_congr x) as (q1 & H1), (to_int64_congr y) as (q2 & H2).
  destruct (to_int64_congr (to_int64 x - to_int64 y)) as (q3 & H3).
  exists (q1 - q2 + q3). lia.
Qed.

Lemma bucket_00_congr (X x y z : Z) :
  exists q, bucket_00 X x y z = X - x - y + z + q * 2 ^ 64.
Proof.
  unfold bucket_00, add_int64, sub_int64.
  destruct (to_int64_congr X) as (q1 & H1), (to_int64_congr x) as (q2 & H2).
  destruct (to_int64_congr y) as (q3 & H3), (to_int64_congr z) as (q4 & H4).
  destruct (to_int64_congr (to_int64 X - to_int64 x)) as (q5 & H5).
  destruct (to_int64_congr (to_int64 (to_int64 X - to_int64 x) - to_int64 y)) as (q6 & H6).
  destruct (to_int64_congr
              (to_int64 (to_int64 (to_int64 X - to_int64 x) - to_int64 y) + to_int64 z))
    as (q7 & H7).
  exists (q1 - q2 - q3 + q4 + q5 + q6 + q7). lia.
Qed.

Lemma bucket_10_range (x y : Z) : - 2 ^ 63 <= bucket_10 x y < 2 ^ 63.
Proof. apply to_int64_range. Qed.

Lemma bucket_00_range (X x y z : Z) : - 2 ^ 63 <= bucket_00 X x y z < 2 ^ 63.
Proof. apply to_int64_range. Qed.

(** Below 2^62 the signed arithmetic is exact. *)
Lemma bucket_10_exact (x y : Z) :
  0 <= x < 2 ^ 62 -> 0 <= y < 2 ^ 62 -> bucket_10 x y = x - y.
Proof.
  intros Hx Hy. unfold bucket_10, sub_int64.
  rewrite (to_int64_small x), (to_int64_small y) by lia.
  apply to_int64_small. lia.
Qed.

Lemma bucket_00_exact (X x y z : Z) :
  0 <= X < 2 ^ 62 -> 0 <= x < 2 ^ 62 -> 0 <= y < 2 ^ 62 -> 0 <= z < 2 ^ 62 ->
  bucket_00 X x y z = X - x - y + z.
Proof.
  intros HX Hx Hy Hz. unfold bucket_00, add_int64, sub_int64.
  rewrite (to_int64_small X), (to_int64_small x), (to_int64_small y),
    (to_int64_small z) by lia.
  rewrite (to_int64_small (X - x)) by lia.
  rewrite (to_int64_small (X - x - y)) by lia.
  apply to_int64_small. lia.
Qed.

(** The bucket-total check of [labels_compute_pair] cannot fail once the
    six derived buckets are non-negative. *)
Lemma bucket_total (X x y z : Z) :
  in_u64 X ->
  0 <= bucket_10 x z -> 0 <= bucket_10 y z -> 0 <= bucket_00 X x y z ->
  wrap64 (wrap64 (wrap64 (z + wrap64 (bucket_10 x z)) + wrap64 (bucket_10 y z))
          + wrap64 (bucket_00 X x y z)) = X.
Proof.
  intros HX H1 H2 H3.
  pose proof (bucket_10_range x z). pose proof (bucket_10_range y z).
  pose proof (bucket_00_range X x y z).
  rewrite (wrap64_small (bucket_10 x z)), (wrap64_small (bucket_10 y z)),
    (wrap64_small (bucket_00 X x y z)) by lia.
  destruct (bucket_10_congr x z) as (q1 & E1), (bucket_10_congr y z) as (q2 & E2).
  destruct (bucket_00_congr X x y z) as (q3 & E3).
  destruct (wrap64_congr (z + bucket_10 x z)) as (q4 & E4).
  destruct (wrap64_congr (wrap64 (z + bucket_10 x z) + bucket_10 y z)) as (q5 & E5).
  apply wrap64_unique; [exact HX | ].
  exists (q1 + q2 + q3 + q4 + q5). lia.
Qed.

Lemma counts_typed_at (m : HashMap) (p : Z) :
  counts_typed m ->
  in_u64 (entry_n (entry_at (map_entries m) p))
  /\ in_u64 (entry_w (entry_at (map_entries m) p)).
Proof.
  intros H. unfold entry_at.
  destruct (map_entries m !! Z.to_nat p) as [e | ] eqn:He; simpl.
  - unfold counts_typed in H. rewrite Forall_lookup in H. apply (H _ _ He).
  - unfold in_u64. lia.
Qed.

Lemma compute_pair_unfold (ctx : LabelContext) (a b : Z) :
  labels_compute_pair ctx a b
  = (ctx,
     match hashmap_get (card_stats ctx) a, hashmap_get (card_stats ctx) b,
           hashmap_get (pair_stats ctx) (pair_key a b) with
     | Some pa, Some pb, Some pab =>
         pair_result ctx a b (entry_at (map_entries (card_stats ctx)) pa)
           (entry_at (map_entries (card_stats ctx)) pb)
           (entry_at (map_entries (pair_stats ctx)) pab)
     | _, _, _ => None
     end).
Proof.
  unfold labels_compute_pair, pair_result.
  destruct (hashmap_get (card_stats ctx) a) as [pa | ]; [ | reflexivity].
  destruct (hashmap_get (card_stats ctx) b) as [pb | ]; [ | reflexivity].
  destruct (hashmap_get (pair_stats ctx) (pair_key a b)) as [pab | ]; [ | reflexivity].
  cbv zeta.
  repeat match goal with
         | |- context [if ?c then _ else _] => destruct c; try reflexivity
         end.
Qed.

Lemma compute_pair_entries (ctx : LabelContext) (a b : Z) :
  labels_compute_pair ctx a b
  = (ctx, match pair_entries ctx a b with
          | Some (ea, eb, eab) => pair_result ctx a b ea eb eab
          | None => None
          end).
Proof.
  rewrite compute_pair_unfold. unfold pair_entries.
  destruct (hashmap_get (card_stats ctx) a); [ | reflexivity].
  destruct (hashmap_get (card_stats ctx) b); [ | reflexivity].
  destruct (hashmap_get (pair_stats ctx) (pair_key a b)); reflexivity.
Qed.

Lemma pair_entries_typed (ctx : LabelContext) (a b : Z) (ea eb eab : HashEntry) :
  ctx_typed ctx -> pair_entries ctx a b = Some (ea, eb, eab) ->
  (in_u64 (entry_n ea) /\ in_u64 (entry_w ea))
  /\ (in_u64 (entry_n eb) /\ in_u64 (entry_w eb))
  /\ (in_u64 (entry_n eab) /\ in_u64 (entry_w eab)).
Proof.
  intros (_ & _ & Hc & Hp) H. unfold pair_entries in H.
  destruct (hashmap_get (card_stats ctx) a); [ | discriminate].
  destruct (hashmap_get (card_stats ctx) b); [ | discriminate].
  destruct (hashmap_get (pair_stats ctx) (pair_key a b)); [ | discriminate].
  injection H as <- <- <-.
  repeat split; apply counts_typed_at; assumption.
Qed.

(** What an emitted record holds, and the checks that were passed. *)
Lemma pair_result_Some (ctx : LabelContext) (a b : Z) (ea eb eab : HashEntry)
    (r : LabelRecord) :
  pair_result ctx a b ea eb eab = Some r ->
  MIN_BOTH_PRESENT <= entry_n eab
  /\ (total_wins ctx <= total_games ctx /\ entry_w ea <= entry_n ea
      /\ entry_w eb <= entry_n eb /\ entry_w eab <= entry_n eab)
  /\ (0 <= bucket_10 (entry_n ea) (entry_n eab)
      /\ 0 <= bucket_10 (entry_n eb) (entry_n eab)
      /\ 0 <= bucket_00 (total_games ctx) (entry_n ea) (entry_n eb) (entry_n eab)
      /\ 0 <= bucket_10 (entry_w ea) (entry_w eab)
      /\ 0 <= bucket_10 (entry_w eb) (entry_w eab)
      /\ 0 <= bucket_00 (total_wins ctx) (entry_w ea) (entry_w eb) (entry_w eab))
  /\ wrap64 (wrap64 (wrap64 (n11 r + n10 r) + n01 r) + n00 r) = total_games ctx
  /\ wrap64 (wrap64 (wrap64 (w11 r + w10 r) + w01 r) + w00 r) = total_wins ctx
  /\ r = mkRecord a b (entry_n eab) (entry_w eab)
           (wrap64 (bucket_10 (entry_n ea) (entry_n eab)))
           (wrap64 (bucket_10 (entry_w ea) (entry_w eab)))
           (wrap64 (bucket_10 (entry_n eb) (entry_n eab)))
           (wrap64 (bucket_10 (entry_w eb) (entry_w eab)))
           (wrap64 (bucket_00 (total_games ctx) (entry_n ea) (entry_n eb) (entry_n eab)))
           (wrap64 (bucket_00 (total_wins ctx) (entry_w ea) (entry_w eb) (entry_w eab)))
           (p11 r) (p10 r) (p01 r) (p00 r) (syn_delta r).
Proof.
  unfold pair_result. cbv zeta.
  repeat match goal with
         | |- (if ?c then None else _) = Some _ -> _ =>
             destruct c eqn:?; [discriminate | ]
         end.
  intros Heq. injection Heq as Heq. subst r.
  cbn [n11 n10 n01 n00 w11 w10 w01 w00 p11 p10 p01 p00 syn_delta].
  repeat match goal with
         | H : (_ || _) = false |- _ => apply orb_false_elim in H; destruct H
         | H : negb _ = false |- _ => apply negb_false_iff, Z.eqb_eq in H
         end.
  unfold MIN_BOTH_PRESENT in *.
  repeat match goal with
         | H : (_ >? _) = false |- _ => rewrite Z.gtb_ltb in H; apply Z.ltb_ge in H
         | H : (_ <? _) = false |- _ => apply Z.ltb_ge in H
         end.
  repeat split; try assumption; try lia.
Qed.

(** C1: in every record [labels_compute_pair] emits, the four count
    buckets add up to [total_games] and the four win buckets to
    [total_wins], in the 64-bit arithmetic of the record's fields and, when
    the buckets are below 2^62, as plain integers; all eight buckets are
    non-negative 64-bit values. *)
Theorem emitted_record_bucket_sums (ctx : LabelContext) (a b : Z) (r : LabelRecord) :
  ctx_typed ctx ->
  snd (labels_compute_pair ctx a b) = Some r ->
  (wrap64 (wrap64 (wrap64 (n11 r + n10 r) + n01 r) + n00 r) = total_games ctx
   /\ wrap64 (wrap64 (wrap64 (w11 r + w10 r) + w01 r) + w00 r) = total_wins ctx)
  /\ (in_u64 (n11 r) /\ in_u64 (n10 r) /\ in_u64 (n01 r) /\ in_u64 (n00 r)
      /\ in_u64 (w11 r) /\ in_u64 (w10 r) /\ in_u64 (w01 r) /\ in_u64 (w00 r))
  /\ (n11 r < 2 ^ 62 -> n10 r < 2 ^ 62 -> n01 r < 2 ^ 62 -> n00 r < 2 ^ 62 ->
      n11 r + n10 r + n01 r + n00 r = total_games ctx)
  /\ (w11 r < 2 ^ 62 -> w10 r < 2 ^ 62 -> w01 r < 2 ^ 62 -> w00 r < 2 ^ 62 ->
      w11 r + w10 r + w01 r + w00 r = total_wins ctx).
Proof.
  intros Htyped Hr. rewrite compute_pair_entries in Hr. simpl in Hr.
  destruct (pair_entries ctx a b) as [[[ea eb] eab] | ] eqn:He; [ | discriminate].
  destruct (pair_entries_typed ctx a b ea eb eab Htyped He) as (_ & _ & Hn & Hw).
  destruct (pair_result_Some ctx a b ea eb eab r Hr)
    as (_ & _ & _ & Hsn & Hsw & Hfields).
  assert (Hrange : in_u64 (n11 r) /\ in_u64 (n10 r) /\ in_u64 (n01 r) /\ in_u64 (n00 r)
      /\ in_u64 (w11 r) /\ in_u64 (w10 r) /\ in_u64 (w01 r) /\ in_u64 (w00 r)).
  { rewrite Hfields. cbn [n11 n10 n01 n00 w11 w10 w01 w00].
    repeat split; try apply wrap64_range; try apply Hn; try apply Hw. }
  split; [split; assumption | ]. split; [exact Hrange | ].
  unfold in_u64 in Hrange. destruct Hrange as (? & ? & ? & ? & ? & ? & ? & ?).
  split; intros ? ? ? ?.
  - rewrite <- Hsn. rewrite (wrap64_small (n11 r + n10 r)) by lia.
    rewrite (wrap64_small (n11 r + n10 r + n01 r)) by lia.
    rewrite wrap64_small by lia. reflexivity.
  - rewrite <- Hsw. rewrite (wrap64_small (w11 r + w10 r)) by lia.
    rewrite (wrap64_small (w11 r + w10 r + w01 r)) by lia.
    rewrite wrap64_small by lia. reflexivity.
Qed.

Lemma compute_pair_found (ctx : LabelContext) (a b pa pb pab : Z) :
  hashmap_get (card_stats ctx) a = Some pa ->
  hashmap_get (card_stats ctx) b = Some pb ->
  hashmap_get (pair_stats ctx) (pair_key a b) = Some pab ->
  labels_compute_pair ctx a b
  = (ctx, pair_result ctx a b (entry_at (map_entries (card_stats ctx)) pa)
            (entry_at (map_entries (card_stats ctx)) pb)
            (entry_at (map_entries (pair_stats ctx)) pab)).
Proof. intros Ha Hb Hab. rewrite compute_pair_unfold, Ha, Hb, Hab. reflexivity. Qed.

Lemma pair_result_below_threshold (ctx : LabelContext) (a b : Z) (ea eb eab : HashEntry) :
  entry_n eab < MIN_BOTH_PRESENT -> pair_result ctx a b ea eb eab = None.
Proof.
  intros H. unfold pair_result. cbv zeta.
  destruct (Z.ltb_spec (entry_n eab) MIN_BOTH_PRESENT); [reflexivity | lia].
Qed.

Lemma pair_result_wins_exceed (ctx : LabelContext) (a b : Z) (ea eb eab : HashEntry) :
  total_wins ctx > total_games ctx \/ entry_w ea > entry_n ea
  \/ entry_w eb > entry_n eb \/ entry_w eab > entry_n eab ->
  pair_result ctx a b ea eb eab = None.
Proof.
  intros H. unfold pair_result. cbv zeta.
  destruct (entry_n eab <? MIN_BOTH_PRESENT); [reflexivity | ].
  replace ((total_wins ctx >? total_games ctx) || (entry_w ea >? entry_n ea)
           || (entry_w eb >? entry_n eb) || (entry_w eab >? entry_n eab)) with true;
    [reflexivity | ].
  symmetry. rewrite !orb_true_iff, !Z.gtb_ltb, !Z.ltb_lt. lia.
Qed.

Lemma pair_result_negative_bucket (ctx : LabelContext) (a b : Z) (ea eb eab : HashEntry) :
  bucket_10 (entry_n ea) (entry_n eab) < 0
  \/ bucket_10 (entry_n eb) (entry_n eab) < 0
  \/ bucket_00 (total_games ctx) (entry_n ea) (entry_n eb) (entry_n eab) < 0
  \/ bucket_10 (entry_w ea) (entry_w eab) < 0
  \/ bucket_10 (entry_w eb) (entry_w eab) < 0
  \/ bucket_00 (total_wins ctx) (entry_w ea) (entry_w eb) (entry_w eab) < 0 ->
  pair_result ctx a b ea eb eab = None.
Proof.
  intros H. unfold pair_result. cbv zeta.
  destruct (entry_n eab <? MIN_BOTH_PRESENT); [reflexivity | ].
  destruct (_ || _ || _ || _); [reflexivity | ].
  match goal with
  | |- (if ?c then _ else _) = _ => replace c with true; [reflexivity | ]
  end.
  symmetry. rewrite !orb_true_iff, !Z.ltb_lt. lia.
Qed.

Lemma pair_result_passes (ctx : LabelContext) (a b : Z) (ea eb eab : HashEntry) :
  in_u64 (total_games ctx) -> in_u64 (total_wins ctx) ->
  MIN_BOTH_PRESENT <= entry_n eab ->
  total_wins ctx <= total_games ctx -> entry_w ea <= entry_n ea ->
  entry_w eb <= entry_n eb -> entry_w eab <= entry_n eab ->
  0 <= bucket_10 (entry_n ea) (entry_n eab) ->
  0 <= bucket_10 (entry_n eb) (entry_n eab) ->
  0 <= bucket_00 (total_games ctx) (entry_n ea) (entry_n eb) (entry_n eab) ->
  0 <= bucket_10 (entry_w ea) (entry_w eab) ->
  0 <= bucket_10 (entry_w eb) (entry_w eab) ->
  0 <= bucket_00 (total_wins ctx) (entry_w ea) (entry_w eb) (entry_w eab) ->
  exists r, pair_result ctx a b ea eb eab = Some r
    /\ card_a r = a /\ card_b r = b
    /\ n11 r = entry_n eab /\ w11 r = entry_w eab
    /\ n10 r = bucket_10 (entry_n ea) (entry_n eab)
    /\ w10 r = bucket_10 (entry_w ea) (entry_w eab)
    /\ n01 r = bucket_10 (entry_n eb) (entry_n eab)
    /\ w01 r = bucket_10 (entry_w eb) (entry_w eab)
    /\ n00 r = bucket_00 (total_games ctx) (entry_n ea) (entry_n eb) (entry_n eab)
    /\ w00 r = bucket_00 (total_wins ctx) (entry_w ea) (entry_w eb) (entry_w eab)
    /\ p11 r = labels_smooth_prob (w11 r) (n11 r)
    /\ p10 r = labels_smooth_prob (w10 r) (n10 r)
    /\ p01 r = labels_smooth_prob (w01 r) (n01 r)
    /\ p00 r = labels_smooth_prob (w00 r) (n00 r)
    /\ syn_delta r = dbl_add (dbl_sub (dbl_sub (p11 r) (p10 r)) (p01 r)) (p00 r).
Proof.
  intros HN HW Hmin H1 H2 H3 H4 B1 B2 B3 B4 B5 B6.
  unfold pair_result. cbv zeta.
  destruct (Z.ltb_spec (entry_n eab) MIN_BOTH_PRESENT); [lia | ].
  replace ((total_wins ctx >? total_games ctx) || (entry_w ea >? entry_n ea)
           || (entry_w eb >? entry_n eb) || (entry_w eab >? entry_n eab)) with false.
  2:{ symmetry. rewrite !orb_false_iff, !Z.gtb_ltb, !Z.ltb_ge. lia. }
  match goal with
  | |- exists r, (if ?c then _ else _) = _ /\ _ => replace c with false
  end.
  2:{ symmetry. rewrite !orb_false_iff, !Z.ltb_ge. lia. }
  rewrite (bucket_total (total_games ctx)), (bucket_total (total_wins ctx))
    by assumption.
  rewrite !Z.eqb_refl. cbn [negb orb].
  eexists. split; [reflexivity | ].
  cbn [card_a card_b n11 w11 n10 w10 n01 w01 n00 w00 p11 p10 p01 p00 syn_delta].
  pose proof (bucket_10_range (entry_n ea) (entry_n eab)).
  pose proof (bucket_10_range (entry_n eb) (entry_n eab)).
  pose proof (bucket_10_range (entry_w ea) (entry_w eab)).
  pose proof (bucket_10_range (entry_w eb) (entry_w eab)).
  pose proof (bucket_00_range (total_games ctx) (entry_n ea) (entry_n eb) (entry_n eab)).
  pose proof (bucket_00_range (total_wins ctx) (entry_w ea) (entry_w eb) (entry_w eab)).
  rewrite !wrap64_small by lia.
  repeat split.
Qed.

(** C5: [labels_compute_pair] fails when one of the three lookups finds
    nothing and when the pair count is below [MIN_BOTH_PRESENT]; a pair
    that passes these gates, the win-count checks and the bucket checks is
    emitted, with the record filled from the counts. *)
Theorem compute_pair_eligibility (ctx : LabelContext) (a b : Z) :
  ctx_typed ctx ->
  (hashmap_get (card_stats ctx) a = None
   \/ hashmap_get (card_stats ctx) b = None
   \/ hashmap_get (pair_stats ctx) (pair_key a b) = None ->
   labels_compute_pair ctx a b = (ctx, None))
  /\ forall pa pb pab,
       hashmap_get (card_stats ctx) a = Some pa ->
       hashmap_get (card_stats ctx) b = Some pb ->
       hashmap_get (pair_stats ctx) (pair_key a b) = Some pab ->
       let ea := entry_at (map_entries (card_stats ctx)) pa in
       let eb := entry_at (map_entries (card_stats ctx)) pb in
       let eab := entry_at (map_entries (pair_stats ctx)) pab in
       (entry_n eab < MIN_BOTH_PRESENT -> labels_compute_pair ctx a b = (ctx, None))
       /\ (MIN_BOTH_PRESENT <= entry_n eab ->
           total_wins ctx <= total_games ctx -> entry_w ea <= entry_n ea ->
           entry_w eb <= entry_n eb -> entry_w eab <= entry_n eab ->
           0 <= bucket_10 (entry_n ea) (entry_n eab) ->
           0 <= bucket_10 (entry_n eb) (entry_n eab) ->
           0 <= bucket_00 (total_games ctx) (entry_n ea) (entry_n eb) (entry_n eab) ->
           0 <= bucket_10 (entry_w ea) (entry_w eab) ->
           0 <= bucket_10 (entry_w eb) (entry_w eab) ->
           0 <= bucket_00 (total_wins ctx) (entry_w ea) (entry_w eb) (entry_w eab) ->
           exists r, labels_compute_pair ctx a b = (ctx, Some r)
             /\ card_a r = a /\ card_b r = b
             /\ n11 r = entry_n eab /\ w11 r = entry_w eab
             /\ n10 r = bucket_10 (entry_n ea) (entry_n eab)
             /\ w10 r = bucket_10 (entry_w ea) (entry_w eab)
             /\ n01 r = bucket_10 (entry_n eb) (entry_n eab)
             /\ w01 r = bucket_10 (entry_w eb) (entry_w eab)
             /\ n00 r = bucket_00 (total_games ctx) (entry_n ea) (entry_n eb) (entry_n eab)
             /\ w00 r = bucket_00 (total_wins ctx) (entry_w ea) (entry_w eb) (entry_w eab)
             /\ p11 r = labels_smooth_prob (w11 r) (n11 r)
             /\ p10 r = labels_smooth_prob (w10 r) (n10 r)
             /\ p01 r = labels_smooth_prob (w01 r) (n01 r)
             /\ p00 r = labels_smooth_prob (w00 r) (n00 r)
             /\ syn_delta r
                = dbl_add (dbl_sub (dbl_sub (p11 r) (p10 r)) (p01 r)) (p00 r)).
Proof.
  intros (HN & HW & _ & _). split.
  - intros H. rewrite compute_pair_unfold.
    destruct H as [-> | [H | H]].
    + reflexivity.
    + rewrite H. destruct (hashmap_get (card_stats ctx) a); reflexivity.
    + rewrite H. destruct (hashmap_get (card_stats ctx) a); [ | reflexivity].
      destruct (hashmap_get (card_stats ctx) b); reflexivity.
  - intros pa pb pab Ha Hb Hab ea eb eab.
    rewrite (compute_pair_found ctx a b pa pb pab Ha Hb Hab). fold ea eb eab.
    split.
    + intros H. rewrite pair_result_below_threshold by exact H. reflexivity.
    + intros. destruct (pair_result_passes ctx a b ea eb eab) as (r & -> & Hr);
        try assumption.
      exists r. split; [reflexivity | exact Hr].
Qed.

(** C6: [labels_compute_pair] fails, with the context unchanged, when
    [total_wins > total_games] or a win count exceeds its game count, and
    when one of the six derived buckets, as the signed 64-bit values the
    code computes, is negative; for counts below 2^62 these are the
    integers [n_a - n_ab], [n_b - n_ab], [N - n_a - n_b + n_ab] and their
    win analogues. *)
Theorem compute_pair_rejects_invalid_counts (ctx : LabelContext) (a b pa pb pab : Z) :
  hashmap_get (card_stats ctx) a = Some pa ->
  hashmap_get (card_stats ctx) b = Some pb ->
  hashmap_get (pair_stats ctx) (pair_key a b) = Some pab ->
  let n_a := entry_n (entry_at (map_entries (card_stats ctx)) pa) in
  let w_a := entry_w (entry_at (map_entries (card_stats ctx)) pa) in
  let n_b := entry_n (entry_at (map_entries (card_stats ctx)) pb) in
  let w_b := entry_w (entry_at (map_entries (card_stats ctx)) pb) in
  let n_ab := entry_n (entry_at (map_entries (pair_stats ctx)) pab) in
  let w_ab := entry_w (entry_at (map_entries (pair_stats ctx)) pab) in
  let N := total_games ctx in
  let W := total_wins ctx in
  fst (labels_compute_pair ctx a b) = ctx
  /\ (W > N \/ w_a > n_a \/ w_b > n_b \/ w_ab > n_ab ->
      labels_compute_pair ctx a b = (ctx, None))
  /\ (bucket_10 n_a n_ab < 0 \/ bucket_10 n_b n_ab < 0
      \/ bucket_00 N n_a n_b n_ab < 0
      \/ bucket_10 w_a w_ab < 0 \/ bucket_10 w_b w_ab < 0
      \/ bucket_00 W w_a w_b w_ab < 0 ->
      labels_compute_pair ctx a b = (ctx, None))
  /\ (0 <= N < 2 ^ 62 -> 0 <= n_a < 2 ^ 62 -> 0 <= n_b < 2 ^ 62 ->
      0 <= n_ab < 2 ^ 62 ->
      0 <= W < 2 ^ 62 -> 0 <= w_a < 2 ^ 62 -> 0 <= w_b < 2 ^ 62 ->
      0 <= w_ab < 2 ^ 62 ->
      n_a - n_ab < 0 \/ n_b - n_ab < 0 \/ N - n_a - n_b + n_ab < 0
      \/ w_a - w_ab < 0 \/ w_b - w_ab < 0 \/ W - w_a - w_b + w_ab < 0 ->
      labels_compute_pair ctx a b = (ctx, None)).
Proof.
  intros Ha Hb Hab n_a w_a n_b w_b n_ab w_ab N W.
  rewrite (compute_pair_found ctx a b pa pb pab Ha Hb Hab).
  split; [reflexivity | ]. split; [ | split].
  - intros H. rewrite pair_result_wins_exceed by exact H. reflexivity.
  - intros H. rewrite pair_result_negative_bucket by exact H. reflexivity.
  - intros HN Hna Hnb Hnab HW Hwa Hwb Hwab H.
    rewrite pair_result_negative_bucket; [reflexivity | ].
    fold n_a w_a n_b w_b n_ab w_ab N W.
    rewrite !bucket_10_exact, !bucket_00_exact by assumption. exact H.
Qed.

(** * labels_process_game *)
























Lemma counts_typedb_sound (m : HashMap) : counts_typedb m = true -> counts_typed m.
Proof.
  unfold counts_typedb, counts_typed. intros H.
  apply Forall_forall. intros e He. apply list_elem_of_In in He.
  rewrite forallb_forall in H. specialize (H e He).
  rewrite !andb_true_iff, !Z.leb_le, !Z.ltb_lt in H. unfold in_u64. lia.
Qed.

Lemma ctx_typedb_sound (ctx : LabelContext) : ctx_typedb ctx = true -> ctx_typed ctx.
Proof.
  unfold ctx_typedb, ctx_typed. rewrite !andb_true_iff, !Z.leb_le, !Z.ltb_lt.
  intros (((((H1 & H2) & H3) & H4) & H5) & H6). unfold in_u64.
  repeat split; try lia; apply counts_typedb_sound; assumption.
Qed.

Lemma example_ctx_typed : ctx_typed example_ctx.
Proof. apply ctx_typedb_sound. vm_compute. reflexivity. Qed.

(** * The theorems at concrete inputs *)


(** C1 at a concrete input. *)
Lemma emitted_record_bucket_sums_witness :
  ctx_typed example_ctx
  /\ snd (labels_compute_pair example_ctx 1 2) = Some example_record
  /\ n11 example_record + n10 example_record + n01 example_record
     + n00 example_record = total_games example_ctx
  /\ w11 example_record + w10 example_record + w01 example_record
     + w00 example_record = total_wins example_ctx.
Proof.
  assert (Hrun : snd (labels_compute_pair example_ctx 1 2) = Some example_record)
    by (vm_compute; reflexivity).
  split; [exact example_ctx_typed | ]. split; [exact Hrun | ].
  destruct (emitted_record_bucket_sums example_ctx 1 2 example_record
              example_ctx_typed Hrun) as (_ & _ & Hn & Hw).
  split; [apply Hn | apply Hw]; vm_compute; reflexivity.
Defined.


(** C5 at a concrete input. *)
Lemma compute_pair_eligibility_witness :
  ctx_typed example_ctx
  /\ exists r, labels_compute_pair example_ctx 1 2 = (example_ctx, Some r)
               /\ n11 r = 510 /\ n10 r = 90 /\ n01 r = 40 /\ n00 r = 360.
Proof.
  split; [exact example_ctx_typed | ].
  destruct (compute_pair_eligibility example_ctx 1 2 example_ctx_typed) as [_ H].
  assert (Ha : hashmap_get (card_stats example_ctx) 1 = Some 4)
    by (vm_compute; reflexivity).
  assert (Hb : hashmap_get (card_stats example_ctx) 2 = Some 7)
    by (vm_compute; reflexivity).
  assert (Hab : hashmap_get (pair_stats example_ctx) (pair_key 1 2) = Some 6)
    by (vm_compute; reflexivity).
  destruct (H 4 7 6 Ha Hb Hab) as [_ Hpass].
  destruct Hpass as (r & Hr & _ & _ & H11 & _ & H10 & _ & H01 & _ & H00 & _);
    try (vm_compute; congruence).
  exists r. split; [exact Hr | ].
  rewrite H11, H10, H01, H00. vm_compute. repeat split.
Defined.

(** C6 at a concrete input. *)
Lemma compute_pair_rejects_invalid_counts_witness :
  hashmap_get (card_stats inconsistent_ctx) 1 = Some 4
  /\ hashmap_get (card_stats inconsistent_ctx) 2 = Some 7
  /\ hashmap_get (pair_stats inconsistent_ctx) (pair_key 1 2) = Some 6
  /\ labels_compute_pair inconsistent_ctx 1 2 = (inconsistent_ctx, None).
Proof.
  assert (Ha : hashmap_get (card_stats inconsistent_ctx) 1 = Some 4)
    by (vm_compute; reflexivity).
  assert (Hb : hashmap_get (card_stats inconsistent_ctx) 2 = Some 7)
    by (vm_compute; reflexivity).
  assert (Hab : hashmap_get (pair_stats inconsistent_ctx) (pair_key 1 2) = Some 6)
    by (vm_compute; reflexivity).
  split; [exact Ha | ]. split; [exact Hb | ]. split; [exact Hab | ].
  destruct (compute_pair_rejects_invalid_counts inconsistent_ctx 1 2 4 7 6 Ha Hb Hab)
    as (_ & _ & _ & H).
  apply H; vm_compute; try (split; congruence).
  left. reflexivity.
Defined.

Lemma map_after_two_reached :
  reached_by [OpIncrement 5 true; OpIncrement 5 false] map_after_two.
Proof.
  exists 16, map_16. split; [reflexivity | ]. split.
  - repeat constructor; unfold in_u64; lia.
  - vm_compute. reflexivity.
Qed.

(** C8 at a concrete input. *)
Lemma win_count_le_count_below_wrap_witness :
  reached_by [OpIncrement 5 true; OpIncrement 5 false] map_after_two
  /\ is_live (entry_at (map_entries map_after_two) 0) = true
  /\ entry_w (entry_at (map_entries map_after_two) 0)
     <= entry_n (entry_at (map_entries map_after_two) 0).
Proof.
  split; [exact map_after_two_reached | ]. split; [reflexivity | ].
  apply (win_count_le_count_below_wrap
           [OpIncrement 5 true; OpIncrement 5 false] map_after_two 0).
  - exact map_after_two_reached.
  - simpl. lia.
  - simpl. lia.
  - reflexivity.
Defined.


Lemma Z_of_byte_of_Z (z : Z) : Z_of_byte (byte_of_Z z) = z mod 256.
Proof.
  unfold Z_of_byte, byte_of_Z.
  pose proof (Z.mod_pos_bound z 256 ltac:(lia)) as Hr.
  destruct (Byte.of_N (Z.to_N (z mod 256))) as [b | ] eqn:Hb.
  - apply Byte.to_of_N in Hb. rewrite Hb. lia.
  - apply Byte.of_N_None_iff in Hb. lia.
Qed.

Lemma le_bytes_length (k : nat) (z : Z) : length (le_bytes k z) = k.
Proof. revert z. induction k as [ | k IH]; intros z; simpl; [ | rewrite IH]; reflexivity. Qed.

Lemma le_value_le_bytes (k : nat) (z : Z) :
  le_value (le_bytes k z) = z mod 2 ^ (8 * Z.of_nat k).
Proof.
  revert z. induction k as [ | k IH]; intros z.
  - simpl. rewrite Z.mod_1_r. reflexivity.
  - cbn [le_bytes le_value]. rewrite Z_of_byte_of_Z, IH.
    replace (8 * Z.of_nat (S k)) with (8 + 8 * Z.of_nat k) by lia.
    rewrite Z.pow_add_r by lia. change (2 ^ 8) with 256.
    rewrite Z.rem_mul_r by lia. reflexivity.
Qed.

Lemma fread_le_le_bytes (k : nat) (z : Z) (rest : list byte) :
  fread_le k (le_bytes k z ++ rest) = Some (z mod 2 ^ (8 * Z.of_nat k), rest).
Proof.
  unfold fread_le.
  destruct (Nat.ltb_spec (length (le_bytes k z ++ rest)) k) as [Hlt | _].
  - rewrite length_app, le_bytes_length in Hlt. lia.
  - rewrite take_app_length', drop_app_length'
      by (symmetry; apply le_bytes_length).
    rewrite le_value_le_bytes. reflexivity.
Qed.

Lemma fread_u32 (z : Z) (rest : list byte) :
  float_bits z -> fread_le 4 (le_bytes 4 z ++ rest) = Some (z, rest).
Proof.
  intros H. rewrite fread_le_le_bytes. change (2 ^ (8 * Z.of_nat 4)) with (2 ^ 32).
  rewrite Z.mod_small by exact H. reflexivity.
Qed.

Lemma fread_u64 (z : Z) (rest : list byte) :
  in_u64 z -> fread_le 8 (le_bytes 8 z ++ rest) = Some (z, rest).
Proof.
  intros H. rewrite fread_le_le_bytes. change (2 ^ (8 * Z.of_nat 8)) with (2 ^ 64).
  rewrite Z.mod_small by exact H. reflexivity.
Qed.

Lemma emb_at_bits (e : list Z) (j : Z) :
  Forall float_bits e -> float_bits (emb_at e j).
Proof.
  intros H. unfold emb_at. destruct (e !! Z.to_nat j) as [x | ] eqn:Hx; simpl.
  - rewrite Forall_lookup in H. apply (H _ _ Hx).
  - unfold float_bits. lia.
Qed.

Lemma read_floats_write_floats (n : nat) (e : list Z) (j : Z) (rest : list byte) :
  Forall float_bits e -> 0 <= j ->
  read_floats n (write_floats n e j ++ rest)
  = Some (map (fun t => emb_at e (j + Z.of_nat t)) (seq 0 n), rest).
Proof.
  intros He. revert j. induction n as [ | n IH]; intros j Hj.
  - reflexivity.
  - cbn [write_floats read_floats]. rewrite <- app_assoc.
    rewrite fread_u32 by (apply emb_at_bits; exact He).
    rewrite IH by lia. cbn [seq map]. rewrite Z.add_0_r. do 3 f_equal.
    rewrite <- seq_shift, map_map. apply map_ext. intros t. f_equal. lia.
Qed.

Lemma card_at_wf (cs : list CardModel) (n i : Z) :
  Forall card_wf (take (Z.to_nat n) cs) -> 0 <= i < n -> card_wf (card_at cs i).
Proof.
  intros H Hi. unfold card_at.
  destruct (cs !! Z.to_nat i) as [c | ] eqn:Hc; simpl.
  - rewrite Forall_lookup in H. apply (H (Z.to_nat i)).
    rewrite lookup_take_lt by lia. exact Hc.
  - unfold card_wf, blank_card, in_u64, float_bits. simpl.
    split; [lia | ]. split; [lia | constructor].
Qed.

Lemma read_cards_write_cards (n : nat) (cs : list CardModel) (dim i : Z)
    (rest : list byte) :
  0 <= dim -> 0 <= i ->
  (forall t, i <= t < i + Z.of_nat n -> card_wf (card_at cs t)) ->
  read_cards n dim (write_cards n cs dim i ++ rest)
  = Some (map (fun t => reload_card dim (card_at cs (i + Z.of_nat t))) (seq 0 n), rest).
Proof.
  intros Hdim. revert i. induction n as [ | n IH]; intros i Hi Hwf.
  - reflexivity.
  - cbn [write_cards read_cards]. rewrite <- !app_assoc.
    destruct (Hwf i ltac:(lia)) as (Hid & Hb & He).
    rewrite fread_u64 by exact Hid. rewrite fread_u32 by exact Hb.
    rewrite read_floats_write_floats by (assumption || lia).
    rewrite IH; [ | lia | intros t Ht; apply Hwf; lia].
    cbn [seq map]. rewrite Z.add_0_r. do 3 f_equal.
    rewrite <- seq_shift, map_map. apply map_ext. intros t. do 2 f_equal. lia.
Qed.

(** [model_load] reads back what [model_save] wrote, when the card count
    fits the 32-bit field of the header. *)
Lemma load_save (m : SynergyModel) :
  model_wf m -> num_cards m < 2 ^ 32 ->
  model_load (model_save m)
  = Some (mkModel
            (map (fun t => reload_card (embed_dim m) (card_at (cards m) (Z.of_nat t)))
                 (seq 0 (Z.to_nat (num_cards m))))
            (num_cards m)
            (if num_cards m >? 1024 then num_cards m else 1024)
            (global_bias m) (embed_dim m)).
Proof.
  intros (Hn & Hdim & Hgb & Hcards) Hcount.
  unfold EMBED_DIM in Hdim. unfold model_save, model_load.
  rewrite (Z.mod_small (embed_dim m)), (Z.mod_small (num_cards m)) by lia.
  rewrite fread_u32 by (unfold float_bits, MODEL_MAGIC; lia).
  rewrite fread_u32 by (unfold float_bits, MODEL_VERSION; lia).
  rewrite fread_u32 by (unfold float_bits; lia).
  rewrite fread_u32 by (unfold float_bits; lia).
  rewrite !Z.eqb_refl. cbn [negb orb].
  destruct (Z.gtb_spec (embed_dim m) EMBED_DIM) as [H | _];
    [unfold EMBED_DIM in H; lia | ].
  rewrite read_cards_write_cards; [ | lia | lia | ].
  - rewrite <- (app_nil_r (le_bytes 4 (global_bias m))).
    rewrite fread_u32 by exact Hgb. reflexivity.
  - intros t Ht. apply (card_at_wf (cards m) (num_cards m)); [exact Hcards | lia].
Qed.

(** * Predictions of a reloaded model *)

Lemma find_card_from_range (f : nat) (cs : list CardModel) (i id p : Z) :
  find_card_from f cs i id = Some p ->
  i <= p < i + Z.of_nat f /\ card_id (card_at cs p) = id.
Proof.
  revert i. induction f as [ | f IH]; intros i H; [discriminate | ].
  cbn [find_card_from] in H.
  destruct (Z.eqb_spec (card_id (card_at cs i)) id) as [Heq | _].
  - injection H as <-. split; [lia | exact Heq].
  - destruct (IH (i + 1) H). split; [lia | assumption].
Qed.

(** The search reads the ids of the cards it passes and nothing else. *)
Lemma find_card_from_ids (f : nat) (cs cs' : list CardModel) (i id : Z) :
  (forall t, i <= t < i + Z.of_nat f ->
     card_id (card_at cs' t) = card_id (card_at cs t)) ->
  find_card_from f cs' i id = find_card_from f cs i id.
Proof.
  revert i. induction f as [ | f IH]; intros i H; [reflexivity | ].
  cbn [find_card_from]. rewrite (H i) by lia.
  destruct (card_id (card_at cs i) =? id); [reflexivity | ].
  apply IH. intros t Ht. apply H. lia.
Qed.

(** The dot product reads the first [dim] elements of each embedding. *)
Lemma dot_loop_prefix (f : nat) (ea eb ea' eb' : list Z) (i dot : Z) :
  (forall t, i <= t < i + Z.of_nat f ->
     emb_at ea' t = emb_at ea t /\ emb_at eb' t = emb_at eb t) ->
  dot_loop f ea' eb' i dot = dot_loop f ea eb i dot.
Proof.
  revert i dot. induction f as [ | f IH]; intros i dot H; [reflexivity | ].
  cbn [dot_loop]. destruct (H i ltac:(lia)) as [-> ->].
  apply IH. intros t Ht. apply H. lia.
Qed.

Lemma reload_card_emb (dim : Z) (c : CardModel) (j : Z) :
  0 <= j < dim ->
  emb_at (embedding (reload_card dim c)) j = emb_at (embedding c) j.
Proof.
  intros Hj. unfold reload_card. cbn [embedding]. unfold emb_at at 1.
  rewrite lookup_app_l by (rewrite length_map, length_seq; lia).
  rewrite list_lookup_fmap, lookup_seq_lt by lia. simpl.
  rewrite Z2Nat.id by lia. reflexivity.
Qed.

Lemma reloaded_card_at (dim n : Z) (cs : list CardModel) (t : Z) :
  0 <= t < n ->
  card_at (map (fun s => reload_card dim (card_at cs (Z.of_nat s)))
               (seq 0 (Z.to_nat n))) t
  = reload_card dim (card_at cs t).
Proof.
  intros Ht. unfold card_at at 1.
  rewrite list_lookup_fmap, lookup_seq_lt by lia. simpl.
  rewrite Z2Nat.id by lia. reflexivity.
Qed.

(** A model and its reloaded copy predict the same for every pair. *)
Lemma predict_reloaded (m : SynergyModel) (cap : Z) (a b : Z) :
  0 <= num_cards m ->
  model_predict
    (mkModel
       (map (fun t => reload_card (embed_dim m) (card_at (cards m) (Z.of_nat t)))
            (seq 0 (Z.to_nat (num_cards m))))
       (num_cards m) cap (global_bias m) (embed_dim m)) a b
  = model_predict m a b.
Proof.
  intros Hn. unfold model_predict, model_find_card.
  cbn [cards num_cards global_bias embed_dim].
  set (cs' := map _ _).
  assert (Hfind : forall id,
             find_card_from (Z.to_nat (num_cards m)) cs' 0 id
             = find_card_from (Z.to_nat (num_cards m)) (cards m) 0 id).
  { intros id. apply find_card_from_ids. intros t Ht. unfold cs'.
    rewrite reloaded_card_at by lia. reflexivity. }
  rewrite !Hfind.
  destruct (find_card_from _ (cards m) 0 a) as [ia | ] eqn:Ha; [ | reflexivity].
  destruct (find_card_from _ (cards m) 0 b) as [ib | ] eqn:Hb; [ | reflexivity].
  apply find_card_from_range in Ha, Hb.
  unfold cs'. rewrite !reloaded_card_at by lia.
  cbn [bias reload_card]. do 3 f_equal.
  apply dot_loop_prefix. intros t Ht.
  split; apply reload_card_emb; lia.
Qed.

(** C2, as amended: for a model with fewer than 2^32 cards, loading the
    file [model_save] wrote gives a model whose [model_predict] returns the
    same 32-bit pattern as the original for every pair of card ids. *)
Theorem save_load_predicts_the_same (m : SynergyModel) :
  model_wf m -> num_cards m < 2 ^ 32 ->
  exists m',
    model_load (model_save m) = Some m'
    /\ forall x y, model_predict m' x y = model_predict m x y.
Proof.
  intros Hwf Hcount. eexists. split; [apply load_save; assumption | ].
  intros x y. apply predict_reloaded. apply Hwf.
Qed.

Lemma le_bytes_app (j k : nat) (z : Z) :
  le_bytes (j + k) z = le_bytes j z ++ le_bytes k (z / 256 ^ Z.of_nat j).
Proof.
  revert z. induction j as [ | j IH]; intros z.
  - simpl. rewrite Z.div_1_r. reflexivity.
  - cbn [Nat.add le_bytes app]. rewrite IH. do 3 f_equal.
    rewrite Z.div_div by lia. f_equal.
    replace (Z.of_nat (S j)) with (1 + Z.of_nat j) by lia.
    rewrite Z.pow_add_r by lia. reflexivity.
Qed.

(** C2, counterexample: the header of a model of 2^32 cards says 0 cards;
    the reloaded model has none, takes its global bias from the first
    bytes of the first card, and predicts 7 (as a bit pattern) where the
    original predicts [1.0f] for the pair (7, 7) of a card it holds. *)
Lemma oversized_model_predicts_differently :
  exists m',
    model_load (model_save oversized_model) = Some m'
    /\ model_find_card oversized_model 7 = Some 0
    /\ model_predict oversized_model 7 7 = 1065353216
    /\ model_predict m' 7 7 = 7.
Proof.
  assert (Hbig : exists n, Z.to_nat (2 ^ 32) = S n).
  { exists (Z.to_nat (2 ^ 32 - 1)). lia. }
  destruct Hbig as (n & Hn).
  assert (Hfind : model_find_card oversized_model 7 = Some 0).
  { unfold model_find_card, oversized_model. cbn [num_cards cards].
    rewrite Hn. reflexivity. }
  exists (mkModel [] 0 1024 7 16). split; [ | split; [exact Hfind | split] ].
  - unfold model_save, model_load, oversized_model.
    cbn [embed_dim num_cards cards global_bias].
    change (16 mod 2 ^ 32) with 16. change (2 ^ 32 mod 2 ^ 32) with 0.
    rewrite fread_u32 by (unfold float_bits, MODEL_MAGIC; lia).
    rewrite fread_u32 by (unfold float_bits, MODEL_VERSION; lia).
    rewrite fread_u32 by (unfold float_bits; lia).
    rewrite fread_u32 by (unfold float_bits; lia).
    rewrite !Z.eqb_refl. cbn [negb orb].
    change (16 >? EMBED_DIM) with false. change (0 >? 1024) with false.
    change (Z.to_nat 0) with 0%nat. cbn [read_cards].
    rewrite Hn. cbn [write_cards replicate].
    change (card_at (card_7 :: replicate n card_7) 0) with card_7.
    cbn [card_id card_7]. rewrite <- !app_assoc.
    change (le_bytes 8 7) with (le_bytes (4 + 4) 7).
    rewrite (le_bytes_app 4 4 7), <- app_assoc.
    rewrite fread_u32 by (unfold float_bits; lia). reflexivity.
  - unfold model_predict. rewrite Hfind.
    unfold oversized_model. cbn [cards embed_dim global_bias]. rewrite Hn.
    cbn [replicate].
    change (card_at (card_7 :: replicate n card_7) 0) with card_7.
    vm_compute. reflexivity.
  - vm_compute. reflexivity.
Qed.

Lemma small_model_wf : model_wf small_model.
Proof.
  unfold model_wf, small_model. cbn [num_cards embed_dim global_bias cards].
  unfold float_bits, EMBED_DIM.
  split; [lia | ]. split; [lia | ]. split; [lia | ].
  change (Z.to_nat 2) with 2%nat. cbn [take].
  repeat constructor; cbn [card_id bias embedding]; unfold in_u64, UINT64_MAX;
    try lia; apply Forall_replicate; unfold float_bits; lia.
Qed.

(** C2 at a model of two cards. *)
Lemma save_load_predicts_the_same_witness :
  model_wf small_model /\ num_cards small_model < 2 ^ 32
  /\ exists m',
       model_load (model_save small_model) = Some m'
       /\ forall x y, model_predict m' x y = model_predict small_model x y.
Proof.
  split; [exact small_model_wf | ]. split; [simpl; lia | ].
  apply (save_load_predicts_the_same small_model).
  - exact small_model_wf.
  - simpl. lia.
Defined.








































